(** * WishingList-App: the item model, price conversion and group totals

    A shallow embedding of the state handlers of [src/App.tsx] (the [App]
    component) together with the ECMAScript built-ins they call, and the
    properties of the design document proved about them.

    - [JS]: the ECMAScript side: numbers are IEEE 754 binary64 values
      ([PrimFloat.float]), [Number.prototype.toFixed], [parseFloat],
      [Array.prototype.splice] and [Array.prototype.sort].
    - the records [WishlistItem], [Person], [EditingItem] and the React
      state of [App] as one record [AppState]; every handler is a function
      from the state it closes over to the state after its setters ran.
    - the conversion routine of the [money] package is not part of the
      repository: the handlers are written over an arbitrary [fx];
      [fx_spec] gives the formula of the design document, and [Money.fx]
      the arithmetic of the package.
    - the handlers and view expressions the design document does not speak
      of ([addPerson], [removePerson], [startEditingItem], [cancelEditing],
      [getParentItem], the condition for showing a group total), with
      [JSNumber]: [Number::toString]; and what the code shows about them:
      invariants of the item lists, round trips, and how the handlers
      compose. *)

From Stdlib Require Import ZArith Floats String Ascii List DecimalString Lia.
From Stdlib Require DecimalPos DecimalN.
From stdpp Require Import base gmap strings list sorting.

Local Open Scope string_scope.
Local Open Scope Z_scope.

(* ===================================================================== *)
(** * ECMAScript built-ins *)
(* ===================================================================== *)

Module JS.

(** A JavaScript [number]: a binary64 float with a single NaN. *)
Abbreviation number := float.

(** [ToBoolean] on numbers: [+0], [-0] and [NaN] are falsy. *)
Definition truthy (x : number) : bool := negb (is_zero x || is_nan x).

(** The decimal digits of a non-negative integer. *)
Definition digits (n : Z) : string := NilZero.string_of_uint (N.to_uint (Z.to_N n)).

(** Strings are sequences of 8-bit code units; [repeat0 k] is ["0"] k times. *)
Fixpoint repeat0 (k : nat) : string :=
  match k with
  | O => ""
  | S k' => String "0" (repeat0 k')
  end.

(** ** Rounding an exact value to the nearest binary64 (ties to even) *)

(** The binary64 nearest to the integer [z]. *)
Definition round_int (z : Z) : spec_float := binary_normalize prec emax z 0 false.

(** The binary64 nearest to [p / q] for [0 < p] and [0 < q]: the quotient is
    taken with at least 64 significant bits and a sticky bit below them. *)
Definition round_ratio (p q : Z) : spec_float :=
  let k := Z.max 0 (Z.log2 q + 66 - Z.log2 p) in
  let num := p * 2 ^ k in
  let sticky := if num mod q =? 0 then 0 else 1 in
  binary_normalize prec emax (2 * (num / q) + sticky) (- k - 1) false.

(** The binary64 nearest to [M * 10^e10], for [0 <= M]. Values beyond the
    range of the format are cut off before the power of ten is built. *)
Definition round_decimal (M e10 : Z) : spec_float :=
  if M =? 0 then S754_zero false
  else if 400 <? e10 then S754_infinity false
  else if e10 <? - 400 - (Z.log2 M + 1) then S754_zero false
  else if 0 <=? e10 then round_int (M * 10 ^ e10)
  else round_ratio M (10 ^ (- e10)).

(** ** Number.prototype.toFixed *)

(** The integer [n] for which [n / 10^f] is closest to [m * 2^e]; the larger
    one if there are two. *)
Definition scaled (f : nat) (m : positive) (e : Z) : Z :=
  match e with
  | Zneg p => (2 * 10 ^ Z.of_nat f * Zpos m + 2 ^ Zpos p) / 2 ^ (Zpos p + 1)
  | _ => 10 ^ Z.of_nat f * Zpos m * 2 ^ e
  end.

(** The digits of [n] with a point before the last [f] of them, padded with
    zeros on the left to [f + 1] digits. *)
Definition fixed_digits (f : nat) (n : Z) : string :=
  let m := digits n in
  let k := String.length m in
  let m := if (k <=? f)%nat then repeat0 (f + 1 - k) ++ m else m in
  let k := String.length m in
  match f with
  | O => m
  | _ => substring 0 (k - f) m ++ "." ++ substring (k - f) f m
  end.

(** [Number::toString] of an integer [X >= 10^21] that is the binary64
    [m * 2^e]: the shortest digit string [s] with [s * 10^(n-k)] rounding to
    the same float, the closest such (the even one of two), in exponential
    notation. [search] tries [k = 18 - fuel] digits. *)
Definition rounds_to (v : Z) (m : positive) (e : Z) : bool :=
  match round_int v with
  | S754_finite false m' e' => Pos.eqb m' m && (e' =? e)
  | _ => false
  end.

Definition exponential (s n : Z) : string :=
  let d := digits s in
  match d with
  | String c "" => String c "" ++ "e+" ++ digits (n - 1)
  | String c rest => String c "" ++ "." ++ rest ++ "e+" ++ digits (n - 1)
  | "" => ""
  end.

Fixpoint search (fuel : nat) (X : Z) (m : positive) (e : Z) (n k : Z) : string :=
  let p := 10 ^ (n - k) in
  let lo := X / p in
  let hi := lo + 1 in
  let okl := rounds_to (lo * p) m e in
  let okh := rounds_to (hi * p) m e in
  let out s := if s =? 10 ^ k then exponential 1 (n + 1) else exponential s n in
  match fuel with
  | O => exponential lo n
  | S fuel' =>
      if okl && okh then
        match Z.compare (X - lo * p) (hi * p - X) with
        | Lt => out lo
        | Gt => out hi
        | Eq => if Z.even lo then out lo else out hi
        end
      else if okl then out lo
      else if okh then out hi
      else search fuel' X m e n (k + 1)
  end.

Definition toString_large (m : positive) (e : Z) : string :=
  let X := Zpos m * 2 ^ e in
  search 17 X m e (Z.of_nat (String.length (digits X))) 1.

(** [x.toFixed(f)] for [0 <= f <= 100]. *)
Definition toFixed (x : number) (f : nat) : string :=
  match Prim2SF x with
  | S754_nan => "NaN"
  | S754_infinity s => if s then "-Infinity" else "Infinity"
  | S754_zero _ => fixed_digits f 0
  | S754_finite s m e =>
      (if s then "-" else "") ++
      (if (0 <=? e) && (10 ^ 21 <=? Zpos m * 2 ^ e) then toString_large m e
       else fixed_digits f (scaled f m e))
  end.

(** ** parseFloat *)

(** [StrWhiteSpaceChar] among the 8-bit code units: TAB, LF, VT, FF, CR,
    SP and NBSP. *)
Definition isWhiteSpace (c : ascii) : bool :=
  let n := nat_of_ascii c in
  ((9 <=? n) && (n <=? 13) || (n =? 32) || (n =? 160))%nat.

Fixpoint trimStart (s : string) : string :=
  match s with
  | String c s' => if isWhiteSpace c then trimStart s' else s
  | EmptyString => s
  end.

Definition digit_of (c : ascii) : option Z :=
  let n := Z.of_nat (nat_of_ascii c) in
  if (48 <=? n) && (n <=? 57) then Some (n - 48) else None.

(** The longest run of [DecimalDigits] at the head of [s]: the value of the
    digits read after [acc], how many were read after [cnt], and the rest. *)
Fixpoint scan_digits (acc cnt : Z) (s : string) : Z * Z * string :=
  match s with
  | String c s' =>
      match digit_of c with
      | Some d => scan_digits (10 * acc + d) (cnt + 1) s'
      | None => (acc, cnt, s)
      end
  | EmptyString => (acc, cnt, s)
  end.

(** An optional sign: whether it is a minus, and the rest. *)
Definition scan_sign (s : string) : bool * string :=
  match s with
  | String "-" s' => (true, s')
  | String "+" s' => (false, s')
  | _ => (false, s)
  end.

(** [ExponentPart], read only when a digit follows the indicator. *)
Definition scan_exponent (s : string) : Z :=
  match s with
  | String c s' =>
      if (Ascii.eqb c "e" || Ascii.eqb c "E")%char then
        let '(neg, s'') := scan_sign s' in
        let '(v, cnt, _) := scan_digits 0 0 s'' in
        if cnt =? 0 then 0 else if neg then - v else v
      else 0
  | EmptyString => 0
  end.

(** The mathematical value of the longest prefix that is a
    [StrUnsignedDecimalLiteral]: infinity, or [Some (M, e10)] for
    [M * 10^e10]; [None] when no prefix is one. *)
Variant literal := LInfinity | LDecimal (M e10 : Z).

Definition scan_unsigned (s : string) : option literal :=
  if String.prefix "Infinity" s then Some LInfinity
  else
    let '(ip, ni, s1) := scan_digits 0 0 s in
    let '(M, nf, s2) :=
      match s1 with
      | String "." s1' => scan_digits ip 0 s1'
      | _ => (ip, 0, s1)
      end in
    if ni + nf =? 0 then None
    else Some (LDecimal M (scan_exponent s2 - nf)).

(** The sign and magnitude [parseFloat] reads from [inputString]: leading
    white space is skipped, then the longest prefix that is a
    [StrDecimalLiteral] is taken. *)
Definition scan_literal (inputString : string) : option (bool * literal) :=
  let '(neg, s) := scan_sign (trimStart inputString) in
  match scan_unsigned s with
  | Some l => Some (neg, l)
  | None => None
  end.

(** [parseFloat(inputString)]; the value read is rounded to the nearest
    binary64, as the engines do for literals of any length. *)
Definition parseFloat (inputString : string) : number :=
  match scan_literal inputString with
  | None => nan
  | Some (neg, LInfinity) => if neg then neg_infinity else infinity
  | Some (neg, LDecimal M e10) =>
      let v := round_decimal M e10 in
      SF2Prim (if neg then SFopp v else v)
  end.

(** ** Arrays *)

(** [ToBoolean] of an optional boolean property: [undefined] is falsy. *)
Definition truthy_flag (b : option bool) : bool := default false b.

(** [o === s] for a property [o] that is a string, [null] or [undefined]. *)
Definition strictEq (o : option string) (s : string) : bool :=
  match o with
  | Some p => String.eqb p s
  | None => false
  end.

(** The index [splice] starts at: a negative [start] counts from the end,
    and the result is clamped to the array. *)
Definition relativeStart (len start : Z) : Z :=
  if start <? 0 then Z.max (len + start) 0 else Z.min start len.

(** [l.splice(start, deleteCount, ...ins)]: the removed elements, and the
    array afterwards. *)
Definition splice {A} (l : list A) (start deleteCount : Z) (ins : list A)
  : list A * list A :=
  let len := Z.of_nat (length l) in
  let actualStart := relativeStart len start in
  let actualDeleteCount := Z.min (Z.max deleteCount 0) (len - actualStart) in
  (take (Z.to_nat actualDeleteCount) (drop (Z.to_nat actualStart) l),
   take (Z.to_nat actualStart) l ++ ins
     ++ drop (Z.to_nat (actualStart + actualDeleteCount)) l)%list.

(** What [sort] reads from the comparator: [a] goes after [b] only when
    [comparefn(a, b) > 0]; a [NaN] counts as [0]. *)
Definition positive_result (v : number) : bool := (0 <? v)%float.

Definition precedes {A} (comparefn : A -> A -> number) (a b : A) : Prop :=
  positive_result (comparefn a b) = false.

#[global] Instance precedes_dec {A} (comparefn : A -> A -> number) :
  RelDecision (precedes comparefn) :=
  fun a b => decide (positive_result (comparefn a b) = false).

(** [l.sort(comparefn)] on a copy of [l]. ECMAScript asks for a stable
    sort and leaves the algorithm open; for a consistent comparator every
    stable sort returns the same array. The model is the insertion sort
    that takes the elements from the last to the first and puts each one
    before the first element it need not come after: elements the
    comparator does not tell apart keep their order. For an inconsistent
    comparator (some [NaN] keys) the order an engine produces is
    implementation-defined. *)
Fixpoint insert {A} (comparefn : A -> A -> number) (x : A) (l : list A)
  : list A :=
  match l with
  | [] => [x]
  | y :: l' =>
      if positive_result (comparefn x y) then y :: insert comparefn x l'
      else x :: l
  end.

Definition sort {A} (comparefn : A -> A -> number) (l : list A) : list A :=
  foldr (insert comparefn) [] l.

End JS.

(* ===================================================================== *)
(** * The data model of [App.tsx] *)
(* ===================================================================== *)

Module WishlistItem.
Record t := mk {
  id : string;
  name : string;
  price : JS.number;
  currency : string;
  link : string;
  parentId : option string;      (* [parentId?: string | null] *)
  isRequired : option bool       (* [isRequired?: boolean] *)
}.
End WishlistItem.

Module Person.
Record t := mk {
  id : string;
  name : string;
  items : list WishlistItem.t
}.
End Person.

(** [EditingItem]: a [WishlistItem] whose price is the text of the form
    field, with the currency being chosen in [tempCurrency]. *)
Module EditingItem.
Record t := mk {
  id : string;
  name : string;
  price : string;
  currency : string;
  link : string;
  parentId : option string;
  isRequired : option bool;
  tempCurrency : string
}.
End EditingItem.

(** The value of the [newItem] state. *)
Module NewItem.
Record t := mk {
  name : string;
  price : string;
  currency : string;
  link : string;
  parentId : option string;
  isRequired : bool
}.
End NewItem.

Abbreviation ExchangeRates := (gmap string JS.number).

Variant SortDirection := asc | desc.

(** The part of a drop result of the drag-and-drop package that
    [handleDragEnd] reads: [result.source.index] and [result.destination],
    which is absent when the drop was cancelled. *)
Record DraggableLocation := { index : Z }.
Record DropResult := {
  source : DraggableLocation;
  destination : option DraggableLocation
}.

(** The state of the [App] component that the handlers read and set
    ([newPersonName] and [darkMode] play no part in them). *)
Record AppState := {
  people : list Person.t;
  showNewItemForm : option string;
  editingItemId : option string;
  editingItem : option EditingItem.t;
  newItem : NewItem.t;
  displayCurrency : string;
  rates : ExchangeRates;
  sortDirection : SortDirection
}.

Definition set_people (st : AppState) (ps : list Person.t) : AppState :=
  {| people := ps;
     showNewItemForm := showNewItemForm st;
     editingItemId := editingItemId st;
     editingItem := editingItem st;
     newItem := newItem st;
     displayCurrency := displayCurrency st;
     rates := rates st;
     sortDirection := sortDirection st |}.

(* ===================================================================== *)
(** * The handlers of [App] *)
(* ===================================================================== *)

Section Handlers.

(** [fx(price).from(fromCurrency).to(toCurrency)] of the [money] package,
    set up with the fetched rate table; [None] when the call throws. *)
Variable fx : ExchangeRates -> JS.number -> string -> string -> option JS.number.

(** [rates[c]] is there and truthy. The table is the object the rate
    service sent, read at currency codes only. *)
Definition hasRate (rs : ExchangeRates) (c : string) : bool :=
  match rs !! c with
  | Some r => JS.truthy r
  | None => false
  end.

Definition convertPrice (st : AppState) (price : JS.number)
    (fromCurrency toCurrency : string) : string :=
  if negb (hasRate (rates st) fromCurrency) || negb (hasRate (rates st) toCurrency)
  then JS.toFixed price 2
  else
    match fx (rates st) price fromCurrency toCurrency with
    | Some converted => JS.toFixed converted 2
    | None => JS.toFixed price 2
    end.

(** [parseFloat(convertPrice(item.price, item.currency, displayCurrency))],
    the amount every caller computes with. *)
Definition displayPrice (st : AppState) (item : WishlistItem.t) : JS.number :=
  JS.parseFloat
    (convertPrice st (WishlistItem.price item) (WishlistItem.currency item)
       (displayCurrency st)).

(** The item [saveEditedItem] stores: the spread of [editingItem] with the
    price parsed and the currency taken from [tempCurrency] (the extra
    [tempCurrency] property the object keeps is read nowhere). *)
Definition editedItem (e : EditingItem.t) : WishlistItem.t :=
  {| WishlistItem.id := EditingItem.id e;
     WishlistItem.name := EditingItem.name e;
     WishlistItem.price := JS.parseFloat (EditingItem.price e);
     WishlistItem.currency := EditingItem.tempCurrency e;
     WishlistItem.link := EditingItem.link e;
     WishlistItem.parentId := EditingItem.parentId e;
     WishlistItem.isRequired := EditingItem.isRequired e |}.

Definition saveEditedItem (st : AppState) (personId : string) : AppState :=
  match editingItem st, editingItemId st with
  | Some e, Some eid =>
      if String.eqb eid "" then st
      else
        let updatedPeople :=
          (fun person =>
             if String.eqb (Person.id person) personId then
               {| Person.id := Person.id person;
                  Person.name := Person.name person;
                  Person.items :=
                    (fun item =>
                       if String.eqb (WishlistItem.id item) eid
                       then editedItem e
                       else item) <$> Person.items person |}
             else person) <$> people st in
        {| people := updatedPeople;
           showNewItemForm := showNewItemForm st;
           editingItemId := None;
           editingItem := None;
           newItem := newItem st;
           displayCurrency := displayCurrency st;
           rates := rates st;
           sortDirection := sortDirection st |}
  | _, _ => st
  end.

Definition calculateGroupTotal (st : AppState) (items : list WishlistItem.t)
    (parentId : string) : JS.number :=
  match List.find (fun item => String.eqb (WishlistItem.id item) parentId) items with
  | None => 0%float
  | Some parent =>
      let total := displayPrice st parent in
      let children :=
        List.filter
          (fun item =>
             JS.strictEq (WishlistItem.parentId item) parentId
             && JS.truthy_flag (WishlistItem.isRequired item))
          items in
      fold_left (fun total child => (total + displayPrice st child)%float)
        children total
  end.

(** The item [addItem] appends; [uuid] is what [crypto.randomUUID()]
    returned. *)
Definition createdItem (uuid : string) (n : NewItem.t) : WishlistItem.t :=
  {| WishlistItem.id := uuid;
     WishlistItem.name := NewItem.name n;
     WishlistItem.price := JS.parseFloat (NewItem.price n);
     WishlistItem.currency := NewItem.currency n;
     WishlistItem.link := NewItem.link n;
     WishlistItem.parentId := NewItem.parentId n;
     WishlistItem.isRequired := Some (NewItem.isRequired n) |}.

Definition emptyNewItem : NewItem.t :=
  {| NewItem.name := ""; NewItem.price := ""; NewItem.currency := "USD";
     NewItem.link := ""; NewItem.parentId := None;
     NewItem.isRequired := false |}.

Definition addItem (st : AppState) (personId uuid : string) : AppState :=
  let updatedPeople :=
    (fun person =>
       if String.eqb (Person.id person) personId then
         {| Person.id := Person.id person;
            Person.name := Person.name person;
            Person.items :=
              (Person.items person ++ [createdItem uuid (newItem st)])%list |}
       else person) <$> people st in
  {| people := updatedPeople;
     showNewItemForm := None;
     editingItemId := editingItemId st;
     editingItem := editingItem st;
     newItem := emptyNewItem;
     displayCurrency := displayCurrency st;
     rates := rates st;
     sortDirection := sortDirection st |}.

Definition removeItem (st : AppState) (personId itemId : string) : AppState :=
  set_people st
    ((fun person =>
        if String.eqb (Person.id person) personId then
          let updatedItems :=
            List.filter
              (fun item =>
                 if String.eqb (WishlistItem.id item) itemId then false
                 else if JS.strictEq (WishlistItem.parentId item) itemId then false
                 else true)
              (Person.items person) in
          {| Person.id := Person.id person;
             Person.name := Person.name person;
             Person.items := updatedItems |}
        else person) <$> people st).

(** The two [splice] calls of [handleDragEnd] on the copy of the items.
    When the first one removes nothing, [reorderedItem] is [undefined] and
    the second would store it in the array: [None], there being no such
    [WishlistItem]. *)
Definition moveItem (items : list WishlistItem.t) (sourceIndex destinationIndex : Z)
  : option (list WishlistItem.t) :=
  let '(removed, items1) := JS.splice items sourceIndex 1 [] in
  match removed with
  | reorderedItem :: _ =>
      Some (snd (JS.splice items1 destinationIndex 0 [reorderedItem]))
  | [] => None
  end.

Definition handleDragEnd (st : AppState) (result : DropResult) (personId : string)
  : option AppState :=
  match destination result with
  | None => Some st
  | Some dest =>
      updatedPeople ←
        mapM
          (fun person =>
             if String.eqb (Person.id person) personId then
               items ← moveItem (Person.items person) (index (source result))
                          (index dest);
               Some {| Person.id := Person.id person;
                       Person.name := Person.name person;
                       Person.items := items |}
             else Some person)
          (people st);
      Some (set_people st updatedPeople)
  end.

(** The comparator [sortItemsByPrice] hands to [sort]. *)
Definition compareByPrice (st : AppState) (a b : WishlistItem.t) : JS.number :=
  let priceA := displayPrice st a in
  let priceB := displayPrice st b in
  match sortDirection st with
  | asc => (priceA - priceB)%float
  | desc => (priceB - priceA)%float
  end.

Definition sortItemsByPrice (st : AppState) (personId : string) : AppState :=
  let updatedPeople :=
    (fun person =>
       if String.eqb (Person.id person) personId then
         let sortedItems := JS.sort (compareByPrice st) (Person.items person) in
         {| Person.id := Person.id person;
            Person.name := Person.name person;
            Person.items := sortedItems |}
       else person) <$> people st in
  {| people := updatedPeople;
     showNewItemForm := showNewItemForm st;
     editingItemId := editingItemId st;
     editingItem := editingItem st;
     newItem := newItem st;
     displayCurrency := displayCurrency st;
     rates := rates st;
     sortDirection := match sortDirection st with asc => desc | desc => asc end |}.

End Handlers.

(** Modelled from the spec: the conversion of the [money] package, which is
    not among the sources. The design document gives it as
    [amount * (rate[to] / rate[from])]; a rate that is not in the table
    reads as [undefined], which is [NaN] in arithmetic. It does not throw. *)
Definition fx_spec (rs : ExchangeRates) (price : JS.number)
    (fromCurrency toCurrency : string) : option JS.number :=
  let rate c := default nan (rs !! c) in
  Some (price * (rate toCurrency / rate fromCurrency))%float.

(* ===================================================================== *)
(** * What the design document says, in terms of the model *)
(* ===================================================================== *)

(** What every handler does to a person when it maps over [people]: the
    person whose id is [personId] is rebuilt with [g], anybody else is
    handed back. *)
Definition onPerson (personId : string) (g : Person.t -> Person.t)
    (person : Person.t) : Person.t :=
  if String.eqb (Person.id person) personId then g person else person.

(** [ps'] has the people of [ps] at the same places, and everybody but
    [personId] exactly as before. *)
Definition othersUnchanged (personId : string) (ps ps' : list Person.t) : Prop :=
  length ps' = length ps ∧
  ∀ i person, ps !! i = Some person → Person.id person ≠ personId →
              ps' !! i = Some person.

(** [p'] is the person [p] with possibly other items. *)
Definition samePerson (p p' : Person.t) : Prop :=
  Person.id p' = Person.id p ∧ Person.name p' = Person.name p.

(** A child of [parentId] whose cost counts towards the group total. *)
Definition requiredChildOf (parentId : string) (item : WishlistItem.t) : Prop :=
  WishlistItem.parentId item = Some parentId ∧
  WishlistItem.isRequired item = Some true.

#[global] Instance requiredChildOf_dec parentId item :
  Decision (requiredChildOf parentId item).
Proof. unfold requiredChildOf. apply _. Defined.

(** The amounts [xs] added one after the other to [init], in binary64. *)
Definition sumFrom (init : JS.number) (xs : list JS.number) : JS.number :=
  foldl (fun acc x => (acc + x)%float) init xs.

(** An item that [removeItem st _ itemId] has no reason to drop. *)
Definition survives (itemId : string) (item : WishlistItem.t) : Prop :=
  WishlistItem.id item ≠ itemId ∧ WishlistItem.parentId item ≠ Some itemId.

#[global] Instance survives_dec itemId item : Decision (survives itemId item).
Proof. unfold survives. apply _. Defined.

(** A price text of which no prefix is a number. *)
Definition unparsable (text : string) : Prop := JS.scan_literal text = None.




(** The index addresses an element of the list. *)
Definition validIndex {A} (l : list A) (i : Z) : Prop :=
  0 <= i < Z.of_nat (length l).

(** ** The order of numbers *)





(** ** The scenario of the design document *)

Definition itemA : WishlistItem.t :=
  {| WishlistItem.id := "A"; WishlistItem.name := "A";
     WishlistItem.price := 100%float; WishlistItem.currency := "USD";
     WishlistItem.link := ""; WishlistItem.parentId := None;
     WishlistItem.isRequired := None |}.

Definition itemB : WishlistItem.t :=
  {| WishlistItem.id := "B"; WishlistItem.name := "B";
     WishlistItem.price := 20%float; WishlistItem.currency := "USD";
     WishlistItem.link := ""; WishlistItem.parentId := Some "A";
     WishlistItem.isRequired := Some true |}.

Definition itemC : WishlistItem.t :=
  {| WishlistItem.id := "C"; WishlistItem.name := "C";
     WishlistItem.price := 5%float; WishlistItem.currency := "USD";
     WishlistItem.link := ""; WishlistItem.parentId := Some "A";
     WishlistItem.isRequired := Some false |}.

Definition alice : Person.t :=
  {| Person.id := "alice"; Person.name := "Alice";
     Person.items := [itemA; itemB; itemC] |}.

Definition bob : Person.t :=
  {| Person.id := "bob"; Person.name := "Bob"; Person.items := [itemC; itemA] |}.

(** The state right after start-up, holding [ps] and the rate table [rs],
    with [cur] chosen for display. *)
Definition stateOf (ps : list Person.t) (rs : ExchangeRates) (cur : string) : AppState :=
  {| people := ps; showNewItemForm := None; editingItemId := None;
     editingItem := None; newItem := emptyNewItem; displayCurrency := cur;
     rates := rs; sortDirection := asc |}.

Definition usdOnly : ExchangeRates := {[ "USD" := 1%float ]}.

Definition aliceState : AppState := stateOf [alice] usdOnly "USD".

(** One sixteenth, 0.0625: a binary64 with four decimals. *)
Definition sixteenth : JS.number := (1 / 16)%float.

Definition noRates : AppState := stateOf [alice] ∅ "SEK".

(** A table in which the rate of the euro is zero. *)
Definition zeroEuro : ExchangeRates := <[ "EUR" := 0%float ]> usdOnly.

(** The state [st] with another rate table. *)
Definition withRates (st : AppState) (rs : ExchangeRates) : AppState :=
  {| people := people st; showNewItemForm := showNewItemForm st;
     editingItemId := editingItemId st; editingItem := editingItem st;
     newItem := newItem st; displayCurrency := displayCurrency st;
     rates := rs; sortDirection := sortDirection st |}.

(** Alice's item B in the edit form, renamed, moved to the euro, and with
    a price text that is no number. *)
Definition editB : EditingItem.t :=
  {| EditingItem.id := "B"; EditingItem.name := "Book";
     EditingItem.price := "abc"; EditingItem.currency := "USD";
     EditingItem.link := "https://example.org";
     EditingItem.parentId := Some "A"; EditingItem.isRequired := Some true;
     EditingItem.tempCurrency := "EUR" |}.

Definition editingState : AppState :=
  {| people := [bob; alice]; showNewItemForm := None;
     editingItemId := Some "B"; editingItem := Some editB;
     newItem := emptyNewItem; displayCurrency := "USD";
     rates := usdOnly; sortDirection := asc |}.

(* ===================================================================== *)
(** * The other handlers of [App] and the expressions of its view *)
(* ===================================================================== *)

(** [String.prototype.trim]: white space is taken off both ends. *)
Fixpoint trimEnd (s : string) : string :=
  match s with
  | EmptyString => EmptyString
  | String c s' =>
      match trimEnd s' with
      | EmptyString => if JS.isWhiteSpace c then EmptyString else String c EmptyString
      | t => String c t
      end
  end.

Definition trim (s : string) : string := trimEnd (JS.trimStart s).

(** [ToBoolean] of a property that is a string, [null] or [undefined]:
    the empty string is falsy too. *)
Definition truthy_text (o : option string) : bool :=
  match o with
  | Some s => negb (String.eqb s "")
  | None => false
  end.

(** [addPerson]: the state and the [newPersonName] field afterwards;
    [uuid] is what [crypto.randomUUID()] returned. *)
Definition addPerson (st : AppState) (newPersonName uuid : string)
  : AppState * string :=
  if String.eqb (trim newPersonName) "" then (st, newPersonName)
  else
    (set_people st
       (people st ++ [{| Person.id := uuid; Person.name := newPersonName;
                         Person.items := [] |}])%list,
     "").

Definition removePerson (st : AppState) (personId : string) : AppState :=
  set_people st
    (List.filter (fun person => negb (String.eqb (Person.id person) personId))
       (people st)).

Definition cancelEditing (st : AppState) : AppState :=
  {| people := people st;
     showNewItemForm := showNewItemForm st;
     editingItemId := None;
     editingItem := None;
     newItem := newItem st;
     displayCurrency := displayCurrency st;
     rates := rates st;
     sortDirection := sortDirection st |}.

(** [getParentItem]: [null] and [undefined] are both [None]. *)
Definition getParentItem (items : list WishlistItem.t) (parentId : option string)
  : option WishlistItem.t :=
  if negb (truthy_text parentId) then None
  else
    match parentId with
    | Some p => List.find (fun item => String.eqb (WishlistItem.id item) p) items
    | None => None
    end.

(** The branch the view takes for [item]: the edit form in place of the
    item's line, when the item is the one under edit and the form is
    there ([editingItemId === item.id && editingItem]). *)
Definition underEdit (st : AppState) (item : WishlistItem.t) : bool :=
  JS.strictEq (editingItemId st) (WishlistItem.id item)
  && match editingItem st with Some _ => true | None => false end.

(** The condition under which the view shows "Total with required items"
    for [item]: the item's line is shown and not the edit form, the item
    has no parent, and some item is a required child of it. *)
Definition showsGroupTotal (st : AppState) (items : list WishlistItem.t)
    (item : WishlistItem.t) : bool :=
  negb (underEdit st item)
  && (negb (truthy_text (WishlistItem.parentId item))
      && existsb
           (fun i =>
              JS.strictEq (WishlistItem.parentId i) (WishlistItem.id item)
              && JS.truthy_flag (WishlistItem.isRequired i))
           items).

(** ** Invariants of an item list *)

Definition itemIds (items : list WishlistItem.t) : list string :=
  WishlistItem.id <$> items.

(** No two items of the list share an id. *)
Definition uniqueIds (items : list WishlistItem.t) : Prop := NoDup (itemIds items).

(** Every parent named in the list is an item of the list that has no
    parent itself: the dependencies are closed and one level deep. *)
Definition oneLevel (items : list WishlistItem.t) : Prop :=
  ∀ item p,
    item ∈ items → WishlistItem.parentId item = Some p →
    ∃ parent,
      parent ∈ items ∧ WishlistItem.id parent = p ∧
      WishlistItem.parentId parent = None.

(** No item of the list has the id [x], and none names [x] as its parent. *)
Definition unused (x : string) (items : list WishlistItem.t) : Prop :=
  ∀ item, item ∈ items →
          WishlistItem.id item ≠ x ∧ WishlistItem.parentId item ≠ Some x.

(* ===================================================================== *)
(** * Number::toString and the edit form *)
(* ===================================================================== *)

(** [Number::toString] of ECMAScript with radix 10, which
    [startEditingItem] calls to fill the price field of the edit form. *)
Module JSNumber.

(** Whether the decimal [s * 10^e10] is read as the binary64 [m * 2^e]. *)
Definition rounds_back (s e10 : Z) (m : positive) (e : Z) : bool :=
  match JS.round_decimal s e10 with
  | S754_finite false m' e' => Pos.eqb m' m && (e' =? e)
  | _ => false
  end.

(** The number of digits of [s]. *)
Definition size (s : Z) : Z := Z.of_nat (String.length (JS.digits s)).

(** The integers [s] and [n] of [Number::toString] for the positive value
    [P / Q], the binary64 [m * 2^e], which lies in [10^(n-1), 10^n):
    [k = size s] is as small as possible with [s * 10^(n-k)] read as the
    same binary64, and of the candidates with [k] digits the closest is
    taken, the even one of two. The search goes up from [k] digits; the
    last number of digits to try is that of the exact decimal expansion
    [exact * 10^(n - size exact)], which is read as the binary64 whatever
    it is. *)
Fixpoint shortest (fuel : nat) (P Q : Z) (m : positive) (e : Z) (n k : Z)
    (exact : Z) : Z * Z :=
  match fuel with
  | O => (exact, n)
  | S fuel' =>
      let P' := if n - k <? 0 then P * 10 ^ (k - n) else P in
      let Q' := if n - k <? 0 then Q else Q * 10 ^ (n - k) in
      let lo := P' / Q' in
      let hi := lo + 1 in
      let cand c := if c =? 10 ^ k then (1, n + 1) else (c, n) in
      let ok c := let '(s, n') := cand c in rounds_back s (n' - size s) m e in
      if ok lo && ok hi then
        match Z.compare (2 * (P' mod Q')) Q' with
        | Lt => cand lo
        | Gt => cand hi
        | Eq => if Z.even lo then cand lo else cand hi
        end
      else if ok lo then cand lo
      else if ok hi then cand hi
      else shortest fuel' P Q m e n (k + 1) exact
  end.

(** The digits of [s] laid out for the decimal exponent [n]: as an integer,
    with a point inside, with zeros after the point, or in exponential
    notation. *)
Definition layout (s n : Z) : string :=
  let d := JS.digits s in
  let k := size s in
  if (k <=? n) && (n <=? 21) then d ++ JS.repeat0 (Z.to_nat (n - k))
  else if (0 <? n) && (n <=? 21) then
    substring 0 (Z.to_nat n) d ++ "." ++ substring (Z.to_nat n) (Z.to_nat (k - n)) d
  else if (-6 <? n) && (n <=? 0) then
    "0." ++ JS.repeat0 (Z.to_nat (- n)) ++ d
  else
    let sign := if n - 1 <? 0 then "-" else "+" in
    let exponent := "e" ++ sign ++ JS.digits (Z.abs (n - 1)) in
    match d with
    | String c "" => String c "" ++ exponent
    | String c rest => String c "" ++ "." ++ rest ++ exponent
    | "" => ""
    end.

(** [Number::toString(x, 10)] of the specification value of [x]. *)
Definition toString_SF (x : spec_float) : string :=
  match x with
  | S754_nan => "NaN"
  | S754_zero _ => "0"
  | S754_infinity s => if s then "-Infinity" else "Infinity"
  | S754_finite sg m e =>
      let exact := if e <? 0 then Zpos m * 5 ^ (- e) else Zpos m * 2 ^ e in
      let P := if e <? 0 then Zpos m else Zpos m * 2 ^ e in
      let Q := if e <? 0 then 2 ^ (- e) else 1 in
      let K := String.length (JS.digits exact) in
      let n := Z.of_nat K + Z.min e 0 in
      let '(s, n') := shortest (K - 1) P Q m e n 1 exact in
      (if sg then "-" else "") ++ layout s n'
  end.

(** [x.toString()]. *)
Definition toString (x : JS.number) : string := toString_SF (Prim2SF x).

End JSNumber.

(** ** Digit strings *)

(** The string consists of decimal digits. *)
Fixpoint all_digits (d : string) : bool :=
  match d with
  | EmptyString => true
  | String c d' =>
      match JS.digit_of c with
      | Some _ => all_digits d'
      | None => false
      end
  end.

(** The number read from the digits of [d] after the number [acc]. *)
Fixpoint value_from (acc : Z) (d : string) : Z :=
  match d with
  | EmptyString => acc
  | String c d' =>
      match JS.digit_of c with
      | Some v => value_from (10 * acc + v) d'
      | None => acc
      end
  end.

(** No digit stands at the head of [r]. *)
Definition stops (r : string) : Prop :=
  match r with
  | EmptyString => True
  | String c _ => JS.digit_of c = None
  end.

(** The [ExponentPart] that [Number::toString] writes for the exponent [c]. *)
Definition exponent_text (c : Z) : string :=
  "e" ++ (if c <? 0 then "-" else "+") ++ JS.digits (Z.abs c).

(** What is left after the digits of a literal: nothing, or an exponent. *)
Definition literal_end (ex : string) : Prop := ex = "" ∨ ∃ c, ex = exponent_text c.

(** ** The edit form *)

(** [startEditingItem]: the item goes to the form with its price written
    out by [toString] and its currency as the currency being chosen. *)
Definition startEditingItem (st : AppState) (item : WishlistItem.t) : AppState :=
  {| people := people st;
     showNewItemForm := showNewItemForm st;
     editingItemId := Some (WishlistItem.id item);
     editingItem :=
       Some {| EditingItem.id := WishlistItem.id item;
               EditingItem.name := WishlistItem.name item;
               EditingItem.price := JSNumber.toString (WishlistItem.price item);
               EditingItem.currency := WishlistItem.currency item;
               EditingItem.link := WishlistItem.link item;
               EditingItem.parentId := WishlistItem.parentId item;
               EditingItem.isRequired := WishlistItem.isRequired item;
               EditingItem.tempCurrency := WishlistItem.currency item |};
     newItem := newItem st;
     displayCurrency := displayCurrency st;
     rates := rates st;
     sortDirection := sortDirection st |}.

(** ** The amount behind a display price *)

(** The number [convertPrice] renders with [toFixed(2)]: the converted
    amount, or the price itself when a rate is missing or the conversion
    throws. *)
Definition renderedAmount
    (fx : ExchangeRates -> JS.number -> string -> string -> option JS.number)
    (st : AppState) (price : JS.number) (fromCurrency toCurrency : string)
  : JS.number :=
  if negb (hasRate (rates st) fromCurrency) || negb (hasRate (rates st) toCurrency)
  then price
  else
    match fx (rates st) price fromCurrency toCurrency with
    | Some converted => converted
    | None => price
    end.

(** The magnitude is below [10^21], where [toFixed] still prints decimals. *)
Definition below_1e21 (x : spec_float) : Prop :=
  match x with
  | S754_finite _ m e => (0 <=? e) && (10 ^ 21 <=? Zpos m * 2 ^ e) = false
  | _ => True
  end.

(** [x] in whole hundredths: the binary64 nearest to [N / 100], where [N] is
    the integer nearest to [100 * |x|] (the upper one of two), with the
    sign of [x]; zeros lose their sign, and what is no finite number stays
    as it is. *)
Definition cents (x : spec_float) : spec_float :=
  match x with
  | S754_zero _ => S754_zero false
  | S754_finite sg m e =>
      let v := JS.round_decimal (JS.scaled 2 m e) (- 2) in
      if sg then SFopp v else v
  | _ => x
  end.

(** ** The conversion of the [money] package *)

(** The [money] package (money.js) is not among the sources. [Money.fx]
    is the arithmetic of its [fx(v).from(a).to(b)], with [fx.rates] the
    fetched table and [fx.base] what [App] sets: [from] converts the value
    to the base currency and [to] converts the result from the base, each
    one multiplying by the rate [getRate] finds. It differs from the
    formula of the design document, which divides the two rates first. *)
Module Money.

(** [fx.base]. *)
Definition base : string := "USD".

(** [getRate(to, from)]: the rate of the base is taken as 1 ([getRate]
    writes it into the table first); a rate that is missing or falsy makes
    it throw; from the base the rate is [rates[to]], to the base it is
    [1 / rates[from]], and between two other currencies
    [rates[to] * (1 / rates[from])]. *)
Definition getRate (rs : ExchangeRates) (to from : string) : option JS.number :=
  let rs := <[ base := 1%float ]> rs in
  match rs !! to, rs !! from with
  | Some rt, Some rf =>
      if negb (JS.truthy rt) || negb (JS.truthy rf) then None
      else if String.eqb from base then Some rt
      else if String.eqb to base then Some (1 / rf)%float
      else Some (rt * (1 / rf))%float
  | _, _ => None
  end.

(** [convert(val, {from, to})]: the value times the rate. *)
Definition convert (rs : ExchangeRates) (val : JS.number) (from to : string)
  : option JS.number :=
  rate ← getRate rs to from; Some (val * rate)%float.

(** [fx(price).from(fromCurrency).to(toCurrency)]; [None] when a step
    throws. *)
Definition fx (rs : ExchangeRates) (price : JS.number)
    (fromCurrency toCurrency : string) : option JS.number :=
  inBase ← convert rs price fromCurrency base;
  convert rs inBase base toCurrency.

End Money.

(** ** Scenarios with a conversion *)

(** The table [{USD: 1, EUR: 0.92}]. *)
Definition euroRates : ExchangeRates :=
  <[ "EUR" := JS.parseFloat "0.92" ]> usdOnly.

Definition euroState : AppState := stateOf [alice] euroRates "USD".

(** An item of a sixteenth of a dollar, 0.0625. *)
Definition itemS : WishlistItem.t :=
  {| WishlistItem.id := "S"; WishlistItem.name := "S";
     WishlistItem.price := sixteenth; WishlistItem.currency := "USD";
     WishlistItem.link := ""; WishlistItem.parentId := None;
     WishlistItem.isRequired := None |}.

(** An item of ten euros with a required child of a sixteenth of a dollar
    and a child of five dollars that is not required. *)
Definition itemP : WishlistItem.t :=
  {| WishlistItem.id := "P"; WishlistItem.name := "P";
     WishlistItem.price := 10%float; WishlistItem.currency := "EUR";
     WishlistItem.link := ""; WishlistItem.parentId := None;
     WishlistItem.isRequired := None |}.

Definition itemQ : WishlistItem.t :=
  {| WishlistItem.id := "Q"; WishlistItem.name := "Q";
     WishlistItem.price := sixteenth; WishlistItem.currency := "USD";
     WishlistItem.link := ""; WishlistItem.parentId := Some "P";
     WishlistItem.isRequired := Some true |}.

Definition itemR : WishlistItem.t :=
  {| WishlistItem.id := "R"; WishlistItem.name := "R";
     WishlistItem.price := 5%float; WishlistItem.currency := "USD";
     WishlistItem.link := ""; WishlistItem.parentId := Some "P";
     WishlistItem.isRequired := Some false |}.

(* ===================================================================== *)
(** * Facts about binary64 arithmetic *)
(* ===================================================================== *)

Section Binary64.




(** What the classification tests say about the specification value. *)
Lemma truthy_not_zero_nan (r : float) :
  JS.truthy r = true →
  match Prim2SF r with
  | S754_zero _ | S754_nan => False
  | _ => True
  end.
Proof.
  unfold JS.truthy, is_zero, is_nan. rewrite !FloatAxioms.eqb_spec.
  change (Prim2SF PrimFloat.zero) with (S754_zero false).
  destruct (Prim2SF r) as [s|s| |s m e]; done.
Qed.

Lemma is_infinity_false (r : float) :
  is_infinity r = false → ∀ s, Prim2SF r ≠ S754_infinity s.
Proof.
  unfold is_infinity. rewrite FloatAxioms.eqb_spec, abs_spec.
  change (Prim2SF PrimFloat.infinity) with (S754_infinity false).
  intros H s Hs. rewrite Hs in H. done.
Qed.

Lemma SFdiv_self s m e :
  SF64div (S754_finite s m e) (S754_finite s m e) = Prim2SF 1.
Proof.
  unfold SF64div, SFdiv, SFdiv_core_binary.
  replace (Zdigits2 (Z.pos m) + e - (Zdigits2 (Z.pos m) + e)) with 0 by lia.
  replace (e - e) with 0 by lia.
  change (0 - Z.min (fexp prec emax 0) 0) with 53.
  change (Z.min (fexp prec emax 0) 0) with (-53).
  cbv iota beta.
  rewrite Z.shiftl_mul_pow2 by lia.
  rewrite (Z.mul_comm (Z.pos m)).
  pose proof (Z.div_mul (2 ^ 53) (Z.pos m) ltac:(lia)) as Hq.
  pose proof (Z.mod_mul (2 ^ 53) (Z.pos m) ltac:(lia)) as Hr.
  unfold Z.div in Hq. unfold Z.modulo in Hr.
  destruct (Z.div_eucl (2 ^ 53 * Z.pos m) (Z.pos m)) as [q r].
  cbn [fst snd] in Hq, Hr. subst q r.
  replace (new_location (Z.pos m) 0) with loc_Exact.
  2:{ unfold new_location. destruct (Z.even _); reflexivity. }
  destruct s; vm_compute; reflexivity.
Qed.

(** A finite non-zero number divided by itself is exactly one. *)
Lemma div_self (r : float) :
  JS.truthy r = true → is_infinity r = false → (r / r)%float = 1%float.
Proof.
  intros Ht Hi. apply Prim2SF_inj. rewrite div_spec.
  pose proof (truthy_not_zero_nan r Ht) as H1.
  pose proof (is_infinity_false r Hi) as H2.
  destruct (Prim2SF r) as [s|s| |s m e]; try done.
  - by destruct (H2 s).
  - apply SFdiv_self.
Qed.

Lemma SFmul_one s m e :
  bounded prec emax m e = true →
  SF64mul (S754_finite s m e) (Prim2SF 1) = S754_finite s m e.
Proof.
  unfold bounded, canonical_mantissa. intros [Hc He]%andb_prop.
  apply Z.eqb_eq in Hc.
  change (Prim2SF 1) with (S754_finite false 4503599627370496 (-52)).
  unfold SF64mul, SFmul. rewrite xorb_false_r.
  rewrite Pos.mul_comm.
  set (big := (4503599627370496 * m)%positive).
  assert (Hd : Z.pos (digits2_pos big) = Z.pos (digits2_pos m) + 52).
  { subst big. vm_compute Pos.mul. cbn [digits2_pos]. lia. }
  vm_compute in big. subst big.
  unfold binary_round_aux, shr_fexp.
  cbn [Zdigits2 shr_record_of_loc].
  rewrite Hd.
  replace (Z.pos (digits2_pos m) + 52 + (e + -52))
    with (Z.pos (digits2_pos m) + e) by lia.
  rewrite Hc. replace (e - (e + -52)) with 52 by lia.
  cbn [shr]. replace (e + -52 + 52) with e by lia.
  match goal with
  | |- context [SpecFloat.iter_pos shr_1 52 ?r] =>
      replace (SpecFloat.iter_pos shr_1 52 r)
        with {| shr_m := Z.pos m; shr_r := false; shr_s := false |}
        by (vm_compute; reflexivity)
  end.
  cbn [shr_m loc_of_shr_record round_nearest_even Zdigits2].
  rewrite Hc, Z.sub_diag. cbn [shr shr_m].
  rewrite He. reflexivity.
Qed.

(** Multiplying by one changes nothing, whatever the number. *)
Lemma mul_one (a : float) : (a * 1)%float = a.
Proof.
  apply Prim2SF_inj. rewrite mul_spec.
  pose proof (Prim2SF_valid a) as Hv.
  destruct (Prim2SF a) as [s|s| |s m e] eqn:Ha.
  - destruct s; reflexivity.
  - destruct s; reflexivity.
  - reflexivity.
  - apply SFmul_one, Hv.
Qed.

(** Two floats with different specification values are different. *)
Lemma float_neq (x y : float) : Prim2SF x ≠ Prim2SF y → x ≠ y.
Proof. intros H ->. by apply H. Qed.

(** ** Comparison and subtraction agree *)

Lemma emin_value : emin = -1074.
Proof. reflexivity. Qed.

(** A mantissa of [d] binary digits lies between [2^(d-1)] and [2^d]. *)
Lemma digits2_pos_bounds m :
  2 ^ (Z.pos (digits2_pos m) - 1) <= Z.pos m < 2 ^ Z.pos (digits2_pos m).
Proof.
  induction m as [m IH|m IH|]; cbn [digits2_pos].
  - rewrite Pos2Z.inj_succ.
    replace (Z.succ (Z.pos (digits2_pos m)) - 1)
      with (Z.succ (Z.pos (digits2_pos m) - 1)) by lia.
    rewrite !Z.pow_succ_r by lia. lia.
  - rewrite Pos2Z.inj_succ.
    replace (Z.succ (Z.pos (digits2_pos m)) - 1)
      with (Z.succ (Z.pos (digits2_pos m) - 1)) by lia.
    rewrite !Z.pow_succ_r by lia. lia.
  - cbn. lia.
Qed.

(** What validity says about a finite number: the exponent is in range,
    the mantissa has at most 53 digits, and exactly 53 above the smallest
    exponent. *)
Lemma bounded_facts m e :
  bounded prec emax m e = true →
  emin <= e <= emax - prec ∧
  Z.pos m < 2 ^ 53 ∧
  (emin < e → 2 ^ 52 <= Z.pos m).
Proof.
  unfold bounded, canonical_mantissa, fexp. intros [Hc He]%andb_prop.
  apply Z.eqb_eq in Hc. apply Z.leb_le in He.
  pose proof (digits2_pos_bounds m) as [Hlo Hhi].
  rewrite emin_value in *.
  change prec with 53 in *. change emax with 1024 in *.
  split; [lia|]. split.
  - eapply Z.lt_le_trans; [exact Hhi|]. apply Z.pow_le_mono_r; lia.
  - intros Hgt. eapply Z.le_trans; [|exact Hlo]. apply Z.pow_le_mono_r; lia.
Qed.

















End Binary64.

(* ===================================================================== *)
(** * Rendering and reading numbers *)
(* ===================================================================== *)

(** The integer [toFixed] prints is within a half of the scaled value, the
    upper one of two: for [x = m / 2^p] it is the [n] with
    [n - 1/2 <= 10^f * x < n + 1/2]. *)
Lemma scaled_nearest f m p :
  let n := JS.scaled f m (Z.neg p) in
  (2 * n - 1) * 2 ^ Z.pos p <= 2 * 10 ^ Z.of_nat f * Z.pos m
  < (2 * n + 1) * 2 ^ Z.pos p.
Proof.
  cbn [JS.scaled]. set (a := 2 * 10 ^ Z.of_nat f * Z.pos m + 2 ^ Z.pos p).
  assert (0 < 2 ^ Z.pos p) as Hp by (apply Z.pow_pos_nonneg; lia).
  replace (2 ^ (Z.pos p + 1)) with (2 * 2 ^ Z.pos p)
    by (rewrite Z.pow_add_r by lia; lia).
  pose proof (Z.div_mod a (2 * 2 ^ Z.pos p) ltac:(lia)) as Hdm.
  pose proof (Z.mod_pos_bound a (2 * 2 ^ Z.pos p) ltac:(lia)) as Hb.
  cbv zeta. nia.
Qed.

(** A whole number is printed digit for digit. *)
Lemma scaled_whole f m e :
  0 <= e → JS.scaled f m e = 10 ^ Z.of_nat f * (Z.pos m * 2 ^ e).
Proof. intros He. unfold JS.scaled. destruct e; lia. Qed.

(** Values of [toFixed(2)]: ties go up, the sign of a negative number is
    kept when it rounds to zero, large numbers fall back to [toString]. *)
Lemma toFixed_examples :
  JS.toFixed sixteenth 2 = "0.06" ∧
  JS.toFixed (JS.parseFloat "0.125") 2 = "0.13" ∧
  JS.toFixed (JS.parseFloat "1.005") 2 = "1.00" ∧
  JS.toFixed (JS.parseFloat "-0.001") 2 = "-0.00" ∧
  JS.toFixed 100 2 = "100.00" ∧
  JS.toFixed (-0) 2 = "0.00" ∧
  JS.toFixed nan 2 = "NaN" ∧
  JS.toFixed infinity 2 = "Infinity" ∧
  JS.toFixed (JS.parseFloat "1e21") 2 = "1e+21" ∧
  JS.toFixed (JS.parseFloat "123456789012345680000") 2
  = "123456789012345683968.00" ∧
  JS.toFixed (JS.parseFloat "12345678901234567890123") 2
  = "1.2345678901234568e+22".
Proof. repeat split; vm_compute; reflexivity. Qed.

(** Values of [parseFloat]: the longest numeric prefix is read and rounded
    to the nearest binary64. *)
Lemma parseFloat_examples :
  JS.parseFloat "100" = 100%float ∧
  JS.parseFloat "0.1" = 0x1.999999999999ap-4%float ∧
  JS.parseFloat "  12.5abc" = 12.5%float ∧
  JS.parseFloat ".5e1" = 5%float ∧
  JS.parseFloat "-0" = (-0)%float ∧
  JS.parseFloat "-Infinity" = neg_infinity ∧
  JS.parseFloat "1e400" = infinity ∧
  JS.parseFloat "9007199254740993" = 9007199254740992%float ∧
  JS.parseFloat "abc" = nan ∧
  JS.parseFloat "" = nan.
Proof. repeat split; vm_compute; reflexivity. Qed.

(* ===================================================================== *)
(** * Currency conversion *)
(* ===================================================================== *)

Section Conversion.

Variable fx : ExchangeRates -> JS.number -> string -> string -> option JS.number.

Lemma hasRate_missing (rs : ExchangeRates) c : rs !! c = None → hasRate rs c = false.
Proof. unfold hasRate. by intros ->. Qed.

Lemma hasRate_zero (rs : ExchangeRates) c r :
  rs !! c = Some r → is_zero r = true → hasRate rs c = false.
Proof. unfold hasRate, JS.truthy. by intros -> ->. Qed.

(** Without both rates the price is rendered as it is, and [fx] is not
    asked. *)
Lemma convertPrice_fallback st a c1 c2 :
  hasRate (rates st) c1 = false ∨ hasRate (rates st) c2 = false →
  convertPrice fx st a c1 c2 = JS.toFixed a 2.
Proof.
  unfold convertPrice. intros [-> | ->]; [done|].
  by rewrite orb_true_r.
Qed.

(** [fx] is asked only for two rates that are there and truthy. *)
Lemma convertPrice_guard fx' st a c1 c2 :
  (hasRate (rates st) c1 = true → hasRate (rates st) c2 = true →
   fx (rates st) a c1 c2 = fx' (rates st) a c1 c2) →
  convertPrice fx st a c1 c2 = convertPrice fx' st a c1 c2.
Proof.
  unfold convertPrice. intros H.
  destruct (hasRate (rates st) c1), (hasRate (rates st) c2); cbn; try done.
  by rewrite H.
Qed.

(** C3 (amended). With one of the two rates missing from the table,
    [convertPrice] applies no rate and returns the original amount rendered
    with two decimals, [price.toFixed(2)]; this holds for every behaviour
    of the conversion package, a throwing one included. *)
Theorem convertPrice_missing_rate st a c1 c2 :
  rates st !! c1 = None ∨ rates st !! c2 = None →
  convertPrice fx st a c1 c2 = JS.toFixed a 2.
Proof.
  intros H. apply convertPrice_fallback.
  destruct H as [H|H]; [left|right]; by apply hasRate_missing.
Qed.

(** C9. A rate of zero sends [convertPrice] to the fallback branch, like a
    missing rate: the result is [price.toFixed(2)], the same as for any
    table in which one of the two rates is missing, and the same whatever
    the conversion package would do, so that the quotient by the rate is
    not formed. *)
Theorem convertPrice_zero_rate st a c1 c2 r :
  rates st !! c1 = Some r ∨ rates st !! c2 = Some r →
  is_zero r = true →
  convertPrice fx st a c1 c2 = JS.toFixed a 2 ∧
  (∀ rs', rs' !! c1 = None ∨ rs' !! c2 = None →
          convertPrice fx st a c1 c2 = convertPrice fx (withRates st rs') a c1 c2) ∧
  (∀ fx', convertPrice fx' st a c1 c2 = convertPrice fx st a c1 c2).
Proof.
  intros H Hz.
  assert (hasRate (rates st) c1 = false ∨ hasRate (rates st) c2 = false) as Hno.
  { destruct H as [H|H]; [left|right]; by eapply hasRate_zero. }
  split; [by apply convertPrice_fallback|]. split.
  - intros rs' Hrs'. rewrite convertPrice_fallback by done.
    symmetry. apply convertPrice_fallback. cbn.
    destruct Hrs' as [H'|H']; [left|right]; by apply hasRate_missing.
  - intros fx'. symmetry. apply convertPrice_guard. intros H1 H2.
    destruct Hno; congruence.
Qed.

End Conversion.

(** C3, at an amount with four decimals: no rate is known, and 0.0625
    comes back as 0.06. *)
Lemma convertPrice_missing_rate_rounds :
  rates noRates !! "EUR" = None ∧
  convertPrice fx_spec noRates sixteenth "EUR" "SEK" = "0.06" ∧
  JS.parseFloat (convertPrice fx_spec noRates sixteenth "EUR" "SEK") ≠ sixteenth.
Proof.
  split; [reflexivity|]. split; [vm_compute; reflexivity|].
  apply float_neq. vm_compute. discriminate.
Qed.

Lemma convertPrice_missing_rate_witness :
  convertPrice fx_spec noRates sixteenth "EUR" "SEK" = JS.toFixed sixteenth 2.
Proof.
  apply (convertPrice_missing_rate fx_spec noRates sixteenth "EUR" "SEK").
  left. reflexivity.
Defined.

Lemma convertPrice_zero_rate_witness :
  convertPrice fx_spec (withRates noRates zeroEuro) 100 "EUR" "USD" = "100.00".
Proof.
  apply (convertPrice_zero_rate fx_spec (withRates noRates zeroEuro)
           100 "EUR" "USD" 0).
  - left. reflexivity.
  - reflexivity.
Defined.

(** The formula of the design document turns an amount into itself when
    both currencies are the same and the rate is finite. *)
Lemma fx_spec_same_currency (rs : ExchangeRates) a c r :
  rs !! c = Some r → JS.truthy r = true → is_infinity r = false →
  fx_spec rs a c c = Some a.
Proof.
  intros Hr Ht Hfin. unfold fx_spec. rewrite Hr. cbn [default].
  by rewrite div_self, mul_one.
Qed.

(* ===================================================================== *)
(** * Lists of people and of items *)
(* ===================================================================== *)

Section PerPerson.

Variable personId : string.
Variable g : Person.t -> Person.t.

Lemma onPerson_other person :
  Person.id person ≠ personId → onPerson personId g person = person.
Proof. unfold onPerson. intros H. by apply String.eqb_neq in H as ->. Qed.

Lemma onPerson_target person :
  Person.id person = personId → onPerson personId g person = g person.
Proof. unfold onPerson. intros H. by apply String.eqb_eq in H as ->. Qed.

Lemma onPerson_lookup (ps : list Person.t) i person :
  ps !! i = Some person →
  (onPerson personId g <$> ps) !! i = Some (onPerson personId g person).
Proof. intros H. by rewrite list_lookup_fmap, H. Qed.

Lemma onPerson_others (ps : list Person.t) :
  othersUnchanged personId ps (onPerson personId g <$> ps).
Proof.
  split; [by rewrite length_fmap|].
  intros i person Hi Hne. rewrite (onPerson_lookup _ _ _ Hi).
  by rewrite onPerson_other.
Qed.

Lemma onPerson_absent (ps : list Person.t) :
  (∀ person, person ∈ ps → Person.id person ≠ personId) →
  onPerson personId g <$> ps = ps.
Proof.
  induction ps as [|p ps IH]; [done|]. intros H. cbn. f_equal.
  - apply onPerson_other, H. by left.
  - apply IH. intros q Hq. apply H. by right.
Qed.

End PerPerson.

Section ListFacts.

Context {A : Type}.

(** [Array.prototype.filter] with a callback that decides [P]. *)
Lemma filter_callback (f : A → bool) (P : A → Prop) `{!∀ x, Decision (P x)} l :
  (∀ x, f x = true ↔ P x) → List.filter f l = filter P l.
Proof.
  intros Hf. induction l as [|x l IH]; [done|].
  rewrite filter_cons, <- IH. cbn [List.filter].
  destruct (f x) eqn:Hx, (decide (P x)) as [HP|HP]; try done.
  - by apply Hf in Hx.
  - apply Hf in HP. congruence.
Qed.

(** [Array.prototype.find] returns the first element the callback takes. *)
Lemma find_first (f : A → bool) (l : list A) i x :
  l !! i = Some x → f x = true →
  (∀ j y, (j < i)%nat → l !! j = Some y → f y = false) →
  List.find f l = Some x.
Proof.
  revert i. induction l as [|y l IH]; intros i Hi Hx Hlt; [done|].
  destruct i as [|i]; cbn in *.
  - injection Hi as ->. by rewrite Hx.
  - rewrite (Hlt 0%nat y) by (done || lia).
    apply (IH i); [done..|]. intros j z Hj Hz.
    apply (Hlt (S j) z); [lia|done].
Qed.

Lemma find_nothing (f : A → bool) (l : list A) :
  (∀ x, x ∈ l → f x = false) → List.find f l = None.
Proof.
  induction l as [|y l IH]; [done|]. intros H. cbn.
  rewrite (H y) by by left. apply IH. intros x Hx. apply H. by right.
Qed.

Lemma fold_left_sumFrom (key : A → JS.number) (l : list A) init :
  fold_left (fun total x => (total + key x)%float) l init
  = sumFrom init (key <$> l).
Proof. revert init. induction l as [|x l IH]; intros init; [done|]. apply IH. Qed.

End ListFacts.

(* ===================================================================== *)
(** * Group totals *)
(* ===================================================================== *)

Lemma strictEq_Some o s : JS.strictEq o s = true ↔ o = Some s.
Proof.
  destruct o as [p|]; cbn; [|done]. rewrite String.eqb_eq.
  split; congruence.
Qed.

Lemma truthy_flag_true b : JS.truthy_flag b = true ↔ b = Some true.
Proof. destruct b as [[]|]; cbn; split; congruence. Qed.

(* ===================================================================== *)
(** * Removing an item *)
(* ===================================================================== *)

Lemma removeItem_people st personId itemId :
  people (removeItem st personId itemId)
  = onPerson personId
      (fun person =>
         {| Person.id := Person.id person;
            Person.name := Person.name person;
            Person.items := filter (survives itemId) (Person.items person) |})
      <$> people st.
Proof.
  unfold removeItem, set_people, onPerson. cbn.
  apply list_fmap_ext. intros i person _.
  destruct (String.eqb _ _); [|done]. f_equal.
  apply filter_callback. intros x. unfold survives.
  destruct (String.eqb (WishlistItem.id x) itemId) eqn:Hid.
  - apply String.eqb_eq in Hid. split; [done|]. by intros [? _].
  - apply String.eqb_neq in Hid.
    destruct (JS.strictEq (WishlistItem.parentId x) itemId) eqn:Hp.
    + apply strictEq_Some in Hp. split; [done|]. by intros [_ ?].
    + split; [|done]. intros _. split; [done|].
      intros Hp'. apply strictEq_Some in Hp'. congruence.
Qed.

(** C2. [removeItem] leaves everybody in place and, in the list of the
    person [personId], keeps exactly the items whose id is not [itemId] and
    whose [parentId] is not [itemId], each as often as before and in the
    order they had. Removing A from Alice's A, B and C leaves no item. *)
Theorem removeItem_cascade :
  (∀ st personId itemId i person,
     people st !! i = Some person →
     Person.id person = personId →
     ∃ person',
       people (removeItem st personId itemId) !! i = Some person' ∧
       samePerson person person' ∧
       Person.items person' = filter (survives itemId) (Person.items person) ∧
       (∀ item, item ∈ Person.items person' ↔
                item ∈ Person.items person ∧
                WishlistItem.id item ≠ itemId ∧
                WishlistItem.parentId item ≠ Some itemId) ∧
       sublist (Person.items person') (Person.items person)) ∧
  Person.items <$> people (removeItem aliceState "alice" "A") = [[]].
Proof.
  split; [|vm_compute; reflexivity].
  intros st personId itemId i person Hi Hid.
  rewrite removeItem_people.
  eexists. split.
  { rewrite (onPerson_lookup _ _ _ _ _ Hi), onPerson_target by done. done. }
  cbn. split; [done|]. split; [done|]. split.
  - intros item. rewrite list_elem_of_filter. unfold survives. tauto.
  - apply sublist_filter.
Qed.

Lemma removeItem_cascade_witness :
  ∃ person',
    people (removeItem aliceState "alice" "B") !! 0%nat = Some person' ∧
    Person.items person' = [itemA; itemC].
Proof.
  destruct (proj1 removeItem_cascade aliceState "alice" "B" 0%nat alice
              eq_refl eq_refl) as (person' & H1 & _ & H2 & _).
  exists person'. split; [exact H1|]. rewrite H2. reflexivity.
Defined.

(* ===================================================================== *)
(** * Sorting by price *)
(* ===================================================================== *)

Section Sorting.

Variable fx : ExchangeRates -> JS.number -> string -> string -> option JS.number.

Lemma sort_insert_Permutation {A} (comparefn : A → A → JS.number) x (l : list A) :
  JS.insert comparefn x l ≡ₚ x :: l.
Proof.
  induction l as [|y l IH]; [done|]. cbn [JS.insert].
  destruct (JS.positive_result (comparefn x y)); [|done].
  rewrite IH. apply Permutation_swap.
Qed.

Lemma sort_Permutation {A} (comparefn : A → A → JS.number) (l : list A) :
  JS.sort comparefn l ≡ₚ l.
Proof.
  induction l as [|x l IH]; [done|]. unfold JS.sort in *. cbn [foldr].
  by rewrite sort_insert_Permutation, IH.
Qed.







Lemma sortItemsByPrice_people st personId :
  people (sortItemsByPrice fx st personId)
  = onPerson personId
      (fun person =>
         {| Person.id := Person.id person;
            Person.name := Person.name person;
            Person.items := JS.sort (compareByPrice fx st) (Person.items person) |})
      <$> people st.
Proof. reflexivity. Qed.

(** Sorting changes neither the rates nor the display currency. *)
Lemma sortItemsByPrice_displayPrice st personId item :
  displayPrice fx (sortItemsByPrice fx st personId) item = displayPrice fx st item.
Proof. reflexivity. Qed.

(** C10. [sortItemsByPrice] leaves everybody in place, and the items of
    each person afterwards are a permutation of the items before: the same
    records, each as often as before. *)
Theorem sortItemsByPrice_permutes st personId i person :
  people st !! i = Some person →
  length (people (sortItemsByPrice fx st personId)) = length (people st) ∧
  ∃ person',
    people (sortItemsByPrice fx st personId) !! i = Some person' ∧
    samePerson person person' ∧
    Person.items person' ≡ₚ Person.items person.
Proof.
  intros Hi. rewrite sortItemsByPrice_people.
  split; [by rewrite length_fmap|].
  eexists. split; [by apply onPerson_lookup|].
  unfold onPerson. destruct (String.eqb _ _); cbn; [|done].
  split; [done|]. apply sort_Permutation.
Qed.





End Sorting.



Lemma sortItemsByPrice_permutes_witness :
  ∃ person',
    people (sortItemsByPrice fx_spec aliceState "alice") !! 0%nat = Some person' ∧
    Person.items person' ≡ₚ [itemA; itemB; itemC].
Proof.
  destruct (sortItemsByPrice_permutes fx_spec aliceState "alice" 0%nat alice
              eq_refl) as (_ & person' & H1 & _ & H2).
  exists person'. done.
Defined.

(* ===================================================================== *)
(** * Dragging an item to another place *)
(* ===================================================================== *)

Section Splice.

Context {A : Type}.

(** [l.splice(i, 1)] at an index of the list removes the element there. *)
Lemma splice_remove (l : list A) i x :
  validIndex l i → l !! Z.to_nat i = Some x →
  JS.splice l i 1 [] = ([x], delete (Z.to_nat i) l).
Proof.
  unfold validIndex, JS.splice, JS.relativeStart. intros Hi Hx.
  destruct (Z.ltb_spec i 0) as [?|_]; [lia|].
  rewrite (Z.min_l i) by lia.
  replace (Z.min (Z.max 1 0) (Z.of_nat (length l) - i)) with 1 by lia.
  f_equal.
  - change (Z.to_nat 1) with 1%nat.
    by rewrite (drop_S _ _ _ Hx).
  - rewrite delete_take_drop. cbn. do 2 f_equal. lia.
Qed.

(** [l.splice(j, 0, x)] at a place within the list puts [x] there. *)
Lemma splice_insert (l : list A) j x :
  0 <= j <= Z.of_nat (length l) →
  snd (JS.splice l j 0 [x])
  = (take (Z.to_nat j) l ++ x :: drop (Z.to_nat j) l)%list.
Proof.
  unfold JS.splice, JS.relativeStart. intros Hj. cbn [snd].
  destruct (Z.ltb_spec j 0) as [?|_]; [lia|].
  rewrite (Z.min_l j) by lia.
  replace (Z.min (Z.max 0 0) (Z.of_nat (length l) - j)) with 0 by lia.
  by rewrite Z.add_0_r.
Qed.

(** The list with [x] put at place [j]. *)
Lemma insert_lookup (l : list A) (j : nat) x :
  (j <= length l)%nat → (take j l ++ x :: drop j l)%list !! j = Some x.
Proof.
  intros Hj. rewrite lookup_app_r; rewrite length_take, Nat.min_l by lia; [|lia].
  by rewrite Nat.sub_diag.
Qed.

Lemma insert_delete (l : list A) (j : nat) x :
  (j <= length l)%nat → delete j (take j l ++ x :: drop j l)%list = l.
Proof.
  intros Hj.
  replace j with (length (take j l)) at 1 by (rewrite length_take; lia).
  by rewrite delete_middle, take_drop.
Qed.

Lemma insert_Permutation (l : list A) (j : nat) x :
  (take j l ++ x :: drop j l)%list ≡ₚ x :: l.
Proof. by rewrite <- Permutation_middle, take_drop. Qed.

End Splice.

(** What [moveItem] returns for two indices of the list. *)
Lemma moveItem_valid items src dst x :
  validIndex items src → validIndex items dst →
  items !! Z.to_nat src = Some x →
  moveItem items src dst
  = Some (take (Z.to_nat dst) (delete (Z.to_nat src) items)
            ++ x :: drop (Z.to_nat dst) (delete (Z.to_nat src) items))%list.
Proof.
  intros Hs Hd Hx. unfold moveItem.
  rewrite (splice_remove _ _ x) by done. f_equal.
  apply splice_insert. unfold validIndex in *.
  rewrite length_delete by (by eexists). lia.
Qed.

(** The first [splice] removes something whenever the source is an index
    of the list, wherever the item is dropped. *)
Lemma moveItem_defined items src dst :
  validIndex items src → is_Some (moveItem items src dst).
Proof.
  intros Hs.
  destruct (lookup_lt_is_Some_2 items (Z.to_nat src)) as [x Hx].
  { unfold validIndex in Hs. lia. }
  unfold moveItem. by rewrite (splice_remove _ _ x).
Qed.

(** The item is at its destination, nothing is lost, and the others are
    in the order they had. *)
Lemma moveItem_spec items src dst items' :
  validIndex items src → validIndex items dst →
  moveItem items src dst = Some items' →
  items' !! Z.to_nat dst = items !! Z.to_nat src ∧
  items' ≡ₚ items ∧
  delete (Z.to_nat dst) items' = delete (Z.to_nat src) items.
Proof.
  intros Hs Hd Hm.
  destruct (lookup_lt_is_Some_2 items (Z.to_nat src)) as [x Hx].
  { unfold validIndex in Hs. lia. }
  rewrite (moveItem_valid _ _ _ x) in Hm by done. injection Hm as <-.
  assert (Z.to_nat dst <= length (delete (Z.to_nat src) items))%nat as Hle.
  { unfold validIndex in *. rewrite length_delete by (by eexists). lia. }
  split; [by rewrite insert_lookup|]. split.
  - rewrite insert_Permutation. symmetry. by apply delete_Permutation.
  - by apply insert_delete.
Qed.

(** What [handleDragEnd] did when it returns a state. *)
Lemma handleDragEnd_inv st result personId st' :
  handleDragEnd st result personId = Some st' →
  match destination result with
  | None => st' = st
  | Some dest =>
      st' = set_people st (people st') ∧
      length (people st') = length (people st) ∧
      ∀ i person,
        people st !! i = Some person →
        ∃ person',
          people st' !! i = Some person' ∧
          if String.eqb (Person.id person) personId then
            ∃ items',
              moveItem (Person.items person) (index (source result)) (index dest)
              = Some items' ∧
              person' = {| Person.id := Person.id person;
                           Person.name := Person.name person;
                           Person.items := items' |}
          else person' = person
  end.
Proof.
  unfold handleDragEnd. destruct (destination result) as [dest|]; [|congruence].
  destruct (mapM _ _) as [ps'|] eqn:Hm; [|done].
  intros [= <-]. cbn [people set_people]. split; [done|].
  apply mapM_Some in Hm. split; [symmetry; by eapply Forall2_length|].
  intros i person Hi.
  destruct (Forall2_lookup_l _ _ _ _ _ Hm Hi) as (person' & Hi' & Hf).
  exists person'. split; [done|].
  destruct (String.eqb _ _); [|congruence].
  destruct (moveItem _ _ _) as [items'|]; cbn in Hf; [|done].
  exists items'. split; [done|]. congruence.
Qed.

(** [handleDragEnd] returns a state whenever every list it has to change
    has an item at the source index. *)
Lemma handleDragEnd_defined st result personId :
  (∀ person, person ∈ people st → Person.id person = personId →
             validIndex (Person.items person) (index (source result))) →
  is_Some (handleDragEnd st result personId).
Proof.
  intros Hv. unfold handleDragEnd.
  destruct (destination result) as [dest|]; [|done].
  match goal with
  | |- is_Some (mbind _ (mapM ?f _)) =>
      assert (is_Some (mapM f (people st))) as [ps' ->]; [|by eexists]
  end.
  apply mapM_is_Some, Forall_forall. intros person Hp. cbn [compose].
  destruct (String.eqb _ _) eqn:Hid; [|done].
  apply String.eqb_eq in Hid.
  destruct (moveItem_defined (Person.items person) (index (source result))
              (index dest)) as [items' ->]; [by apply Hv|done].
Qed.

(** C5. A drop without destination leaves the state as it is. A drop from
    [src] to [dst], both indices of the list of every person [personId],
    moves the item: it is at [dst] afterwards, the items are a permutation
    of what they were, and without the moved item the list reads as
    before. *)
Theorem handleDragEnd_moves st personId src dst :
  handleDragEnd st {| source := {| index := src |}; destination := None |}
    personId = Some st ∧
  ((∀ person, person ∈ people st → Person.id person = personId →
              validIndex (Person.items person) src ∧
              validIndex (Person.items person) dst) →
   ∃ st',
     handleDragEnd st
       {| source := {| index := src |};
          destination := Some {| index := dst |} |} personId = Some st' ∧
     st' = set_people st (people st') ∧
     length (people st') = length (people st) ∧
     ∀ i person,
       people st !! i = Some person →
       Person.id person = personId →
       ∃ person',
         people st' !! i = Some person' ∧
         samePerson person person' ∧
         Person.items person' !! Z.to_nat dst
         = Person.items person !! Z.to_nat src ∧
         Person.items person' ≡ₚ Person.items person ∧
         delete (Z.to_nat dst) (Person.items person')
         = delete (Z.to_nat src) (Person.items person)).
Proof.
  split; [done|]. intros Hv.
  set (result := {| source := {| index := src |};
                    destination := Some {| index := dst |} |}).
  destruct (handleDragEnd_defined st result personId) as [st' Hst'].
  { intros person Hp Hid. by apply Hv. }
  exists st'. split; [done|].
  apply handleDragEnd_inv in Hst' as (Hset & Hlen & Hall). cbn in Hall.
  split; [done|]. split; [done|].
  intros i person Hi Hid.
  destruct (Hall i person Hi) as (person' & Hi' & Hp).
  exists person'. split; [done|].
  apply String.eqb_eq in Hid as Hid'. rewrite Hid' in Hp.
  destruct Hp as (items' & Hm & ->). cbn. split; [done|].
  destruct (Hv person) as [Hs Hd]; [by eapply list_elem_of_lookup_2|done|].
  by apply moveItem_spec.
Qed.

Lemma handleDragEnd_moves_witness :
  ∃ st',
    handleDragEnd aliceState
      {| source := {| index := 0 |}; destination := Some {| index := 2 |} |}
      "alice" = Some st' ∧
    Person.items <$> people st' = [[itemB; itemC; itemA]].
Proof.
  destruct (proj2 (handleDragEnd_moves aliceState "alice" 0 2))
    as (st' & H & _).
  - intros person Hp _. apply list_elem_of_singleton in Hp as ->.
    unfold validIndex. cbn. lia.
  - exists st'. split; [exact H|].
    vm_compute in H. injection H as <-. reflexivity.
Defined.

(* ===================================================================== *)
(** * Saving an edited item *)
(* ===================================================================== *)

Lemma parseFloat_unparsable text : unparsable text → JS.parseFloat text = nan.
Proof. unfold unparsable, JS.parseFloat. by intros ->. Qed.

(** Texts of which no prefix is a number, and one that starts with one. *)
Lemma unparsable_examples :
  unparsable "" ∧ unparsable "abc" ∧ unparsable "-" ∧ unparsable ".e3" ∧
  ¬ unparsable " 12abc".
Proof. repeat split; try reflexivity. discriminate. Qed.

Lemma saveEditedItem_people st personId e eid :
  editingItem st = Some e → editingItemId st = Some eid → eid ≠ "" →
  people (saveEditedItem st personId)
  = onPerson personId
      (fun person =>
         {| Person.id := Person.id person;
            Person.name := Person.name person;
            Person.items :=
              (fun item =>
                 if String.eqb (WishlistItem.id item) eid
                 then editedItem e else item) <$> Person.items person |})
      <$> people st.
Proof.
  intros He Hid Hne. unfold saveEditedItem. rewrite He, Hid.
  by apply String.eqb_neq in Hne as ->.
Qed.

(** C7. With an item in the edit form, [saveEditedItem] closes the form
    and, in the list of [personId], puts in the place of every item with
    the edited id an item made of the form's name, link, [parentId] and
    [isRequired], of the currency chosen in the form, and of the price
    read from the price text by [parseFloat]; the other items stay. A
    price text of which no prefix is a number is stored as [NaN]: nothing
    rejects it. *)
Theorem saveEditedItem_stores st personId e eid :
  editingItem st = Some e →
  editingItemId st = Some eid →
  eid ≠ "" →
  let st' := saveEditedItem st personId in
  editingItem st' = None ∧
  editingItemId st' = None ∧
  length (people st') = length (people st) ∧
  ∀ i person,
    people st !! i = Some person →
    Person.id person = personId →
    ∃ person',
      people st' !! i = Some person' ∧
      samePerson person person' ∧
      length (Person.items person') = length (Person.items person) ∧
      ∀ k item,
        Person.items person !! k = Some item →
        ∃ item',
          Person.items person' !! k = Some item' ∧
          if decide (WishlistItem.id item = eid) then
            WishlistItem.id item' = EditingItem.id e ∧
            WishlistItem.name item' = EditingItem.name e ∧
            WishlistItem.price item' = JS.parseFloat (EditingItem.price e) ∧
            (unparsable (EditingItem.price e) → WishlistItem.price item' = nan) ∧
            WishlistItem.currency item' = EditingItem.tempCurrency e ∧
            WishlistItem.link item' = EditingItem.link e ∧
            WishlistItem.parentId item' = EditingItem.parentId e ∧
            WishlistItem.isRequired item' = EditingItem.isRequired e
          else item' = item.
Proof.
  intros He Hid Hne st'.
  assert (Hp := saveEditedItem_people st personId e eid He Hid Hne).
  fold st' in Hp. rewrite Hp.
  split; [|split].
  - unfold st', saveEditedItem. rewrite He, Hid.
    by apply String.eqb_neq in Hne as ->.
  - unfold st', saveEditedItem. rewrite He, Hid.
    by apply String.eqb_neq in Hne as ->.
  - split; [by rewrite length_fmap|].
    intros i person Hi Hpid. eexists. split.
    { by rewrite (onPerson_lookup _ _ _ _ _ Hi), onPerson_target. }
    cbn. split; [done|]. split; [by rewrite length_fmap|].
    intros k item Hk. eexists. split.
    { by rewrite list_lookup_fmap, Hk. }
    destruct (decide (WishlistItem.id item = eid)) as [Heq|Hneq].
    + apply String.eqb_eq in Heq as ->. cbn.
      repeat split; try done. apply parseFloat_unparsable.
    + by apply String.eqb_neq in Hneq as ->.
Qed.

Lemma saveEditedItem_stores_witness :
  ∃ person',
    people (saveEditedItem editingState "alice") !! 1%nat = Some person' ∧
    ∃ item',
      Person.items person' !! 1%nat = Some item' ∧
      WishlistItem.name item' = "Book" ∧
      WishlistItem.price item' = nan ∧
      WishlistItem.currency item' = "EUR".
Proof.
  destruct (saveEditedItem_stores editingState "alice" editB "B"
              eq_refl eq_refl ltac:(discriminate))
    as (_ & _ & _ & H).
  destruct (H 1%nat alice eq_refl eq_refl) as (person' & H1 & _ & _ & H2).
  exists person'. split; [exact H1|].
  destruct (H2 1%nat itemB eq_refl) as (item' & H3 & H4).
  exists item'. split; [exact H3|].
  cbn in H4. destruct H4 as (_ & Hn & _ & Hp & Hc & _).
  split; [exact Hn|]. split; [|exact Hc].
  apply Hp. reflexivity.
Defined.

(* ===================================================================== *)
(** * Everybody else *)
(* ===================================================================== *)

Lemma addItem_people st personId uuid :
  people (addItem st personId uuid)
  = onPerson personId
      (fun person =>
         {| Person.id := Person.id person;
            Person.name := Person.name person;
            Person.items :=
              (Person.items person ++ [createdItem uuid (newItem st)])%list |})
      <$> people st.
Proof. reflexivity. Qed.

Lemma saveEditedItem_onPerson st personId :
  ∃ g, people (saveEditedItem st personId) = onPerson personId g <$> people st.
Proof.
  destruct (editingItem st) as [e|] eqn:He.
  - destruct (editingItemId st) as [eid|] eqn:Hid.
    + destruct (decide (eid = "")) as [->|Hne].
      * exists (fun p => p). unfold saveEditedItem. rewrite He, Hid. cbn.
        symmetry. etrans; [|apply list_fmap_id].
        apply list_fmap_ext. intros i p _. unfold onPerson.
        by destruct (String.eqb _ _).
      * eexists. by apply (saveEditedItem_people st personId e eid).
    + exists (fun p => p). unfold saveEditedItem. rewrite He, Hid.
      symmetry. etrans; [|apply list_fmap_id].
      apply list_fmap_ext. intros i p _. unfold onPerson.
      by destruct (String.eqb _ _).
  - exists (fun p => p). unfold saveEditedItem. rewrite He.
    symmetry. etrans; [|apply list_fmap_id].
    apply list_fmap_ext. intros i p _. unfold onPerson.
    by destruct (String.eqb _ _).
Qed.

(** After [handleDragEnd] everybody else is as before. *)
Lemma handleDragEnd_others st result personId st' :
  handleDragEnd st result personId = Some st' →
  othersUnchanged personId (people st) (people st').
Proof.
  intros H. apply handleDragEnd_inv in H.
  destruct (destination result) as [dest|]; [|by subst].
  destruct H as (_ & Hlen & Hall). split; [done|].
  intros i person Hi Hne. destruct (Hall i person Hi) as (person' & Hi' & Hp).
  apply String.eqb_neq in Hne. rewrite Hne in Hp. by subst.
Qed.

(** People at the same places, all as before, are the same list. *)
Lemma othersUnchanged_absent personId (ps ps' : list Person.t) :
  othersUnchanged personId ps ps' →
  (∀ person, person ∈ ps → Person.id person ≠ personId) →
  ps' = ps.
Proof.
  intros [Hlen Hsame] Hno. apply list_eq_same_length with (length ps); [done..|].
  intros i x y Hi Hx Hy.
  rewrite (Hsame i y Hy) in Hx; [congruence|].
  apply Hno. by eapply list_elem_of_lookup_2.
Qed.

(** C8. Adding, removing, saving, sorting and dragging for the person
    [personId] leave every other person as before, at the same place; when
    nobody has the id [personId] the list of people is as before. Dragging
    returns a state whenever the source is an index of every list it has to
    change, so always when nobody has the id. *)
Theorem handlers_leave_others fx st personId :
  let unchanged ps' :=
    othersUnchanged personId (people st) ps' ∧
    ((∀ person, person ∈ people st → Person.id person ≠ personId) →
     ps' = people st) in
  (∀ uuid, unchanged (people (addItem st personId uuid))) ∧
  (∀ itemId, unchanged (people (removeItem st personId itemId))) ∧
  unchanged (people (saveEditedItem st personId)) ∧
  unchanged (people (sortItemsByPrice fx st personId)) ∧
  (∀ result,
     (∀ st', handleDragEnd st result personId = Some st' →
             unchanged (people st')) ∧
     ((∀ person, person ∈ people st → Person.id person = personId →
                 validIndex (Person.items person) (index (source result))) →
      is_Some (handleDragEnd st result personId))).
Proof.
  intros unchanged.
  assert (Hmap : ∀ g, unchanged (onPerson personId g <$> people st)).
  { intros g. split; [apply onPerson_others|apply onPerson_absent]. }
  split; [|split; [|split; [|split]]].
  - intros uuid. rewrite addItem_people. apply Hmap.
  - intros itemId. rewrite removeItem_people. apply Hmap.
  - destruct (saveEditedItem_onPerson st personId) as [g ->]. apply Hmap.
  - rewrite sortItemsByPrice_people. apply Hmap.
  - intros result. split; [|apply handleDragEnd_defined].
    intros st' Hst'. pose proof (handleDragEnd_others _ _ _ _ Hst') as Ho.
    split; [done|]. by apply othersUnchanged_absent.
Qed.

Lemma handlers_leave_others_witness :
  people (removeItem editingState "alice" "A") !! 0%nat = Some bob ∧
  people (sortItemsByPrice fx_spec editingState "carol") = [bob; alice] ∧
  is_Some (handleDragEnd editingState
             {| source := {| index := 7 |};
                destination := Some {| index := 0 |} |} "carol").
Proof.
  pose proof (handlers_leave_others fx_spec editingState "alice")
    as (_ & Hremove & _).
  pose proof (handlers_leave_others fx_spec editingState "carol")
    as (_ & _ & _ & Hsort & Hdrag).
  assert (∀ person, person ∈ [bob; alice] → Person.id person ≠ "carol") as Hno.
  { intros person Hp. apply list_elem_of_In in Hp. cbn in Hp.
    destruct Hp as [<-|[<-|[]]]; discriminate. }
  split; [|split].
  - apply (proj1 (Hremove "A")) with (i := 0%nat); [reflexivity|discriminate].
  - apply (proj2 Hsort), Hno.
  - apply (proj2 (Hdrag _)). intros person Hp Hid. by destruct (Hno person Hp).
Defined.

(* ===================================================================== *)
(** * People *)
(* ===================================================================== *)

(** A text of white space only. *)
Lemma trimStart_blank s :
  JS.trimStart s = "" ↔ ∀ c, In c (list_ascii_of_string s) → JS.isWhiteSpace c = true.
Proof.
  induction s as [|c s IH]; cbn.
  - split; [by intros _ ? []|done].
  - destruct (JS.isWhiteSpace c) eqn:Hc.
    + rewrite IH. split.
      * intros H c' [<-|Hc']; auto.
      * intros H c' Hc'. apply H. by right.
    + split; [done|]. intros H. specialize (H c (or_introl eq_refl)). congruence.
Qed.

Lemma trimEnd_blank s :
  trimEnd s = "" ↔ ∀ c, In c (list_ascii_of_string s) → JS.isWhiteSpace c = true.
Proof.
  induction s as [|c s IH]; cbn.
  - split; [by intros _ ? []|done].
  - destruct (trimEnd s) as [|c' t] eqn:Ht.
    + destruct (JS.isWhiteSpace c) eqn:Hc.
      * split; [|done]. intros _ c' [<-|Hc']; [done|].
        by apply (proj1 IH eq_refl).
      * split; [done|]. intros H. specialize (H c (or_introl eq_refl)). congruence.
    + split; [done|]. intros H.
      assert ("" = String c' t) as Hbad; [|done].
      symmetry. apply IH. intros c'' Hc''. apply H. by right.
Qed.

(** What [trimStart] leaves is empty or starts with something else than
    white space. *)
Lemma trimStart_head s :
  match JS.trimStart s with
  | String c _ => JS.isWhiteSpace c = false
  | EmptyString => True
  end.
Proof.
  induction s as [|c s IH]; cbn; [done|].
  by destruct (JS.isWhiteSpace c) eqn:Hc.
Qed.

Lemma trim_blank s :
  trim s = "" ↔ ∀ c, In c (list_ascii_of_string s) → JS.isWhiteSpace c = true.
Proof.
  unfold trim. rewrite <- trimStart_blank, trimEnd_blank.
  pose proof (trimStart_head s) as Hh.
  destruct (JS.trimStart s) as [|c t]; [done|].
  split; [|done]. intros H. specialize (H c (or_introl eq_refl)). congruence.
Qed.

Lemma set_people_same st : set_people st (people st) = st.
Proof. by destruct st. Qed.

Lemma set_people_twice st ps ps' :
  set_people (set_people st ps) ps' = set_people st ps'.
Proof. done. Qed.

Lemma removePerson_eq st personId :
  removePerson st personId
  = set_people st (filter (fun person => Person.id person ≠ personId) (people st)).
Proof.
  unfold removePerson. f_equal. apply filter_callback. intros person.
  rewrite negb_true_iff. apply String.eqb_neq.
Qed.

Lemma filter_all {A} (P : A → Prop) `{!∀ x, Decision (P x)} (l : list A) :
  (∀ x, x ∈ l → P x) → filter P l = l.
Proof.
  induction l as [|x l IH]; [done|]. intros Hall.
  rewrite filter_cons_True by (apply Hall; by left).
  f_equal. apply IH. intros y Hy. apply Hall. by right.
Qed.

Lemma filter_twice {A} (P : A → Prop) `{!∀ x, Decision (P x)} (l : list A) :
  filter P (filter P l) = filter P l.
Proof. apply filter_all. intros x Hx. by apply list_elem_of_filter in Hx as [? _]. Qed.

(** X1. [addPerson] adds nobody for a name of white space only (the empty name
    included) and leaves the field as typed; for any other name it appends
    one person without items, with the name as typed, white space at its
    ends included, and empties the field. The people already there stay in
    place. *)
Theorem addPerson_adds st name uuid :
  ((∀ c, In c (list_ascii_of_string name) → JS.isWhiteSpace c = true) →
   addPerson st name uuid = (st, name)) ∧
  ((∃ c, In c (list_ascii_of_string name) ∧ JS.isWhiteSpace c = false) →
   ∃ st',
     addPerson st name uuid = (st', "") ∧
     st' = set_people st (people st') ∧
     people st'
     = (people st ++ [{| Person.id := uuid; Person.name := name;
                         Person.items := [] |}])%list ∧
     ∀ i person, people st !! i = Some person → people st' !! i = Some person).
Proof.
  unfold addPerson. split.
  - intros H. apply trim_blank in H. by rewrite H.
  - intros (c & Hc & Hws).
    destruct (String.eqb_spec (trim name) "") as [Ht|Ht].
    + rewrite trim_blank in Ht. rewrite (Ht c Hc) in Hws. done.
    + eexists. split; [done|]. cbn. split; [done|]. split; [done|].
      intros i person Hi. by apply lookup_app_l_Some.
Qed.

Lemma addPerson_adds_witness :
  addPerson aliceState "   " "p2" = (aliceState, "   ") ∧
  ∃ st', addPerson aliceState " Bob " "p2" = (st', "") ∧
         Person.name <$> people st' = ["Alice"; " Bob "].
Proof.
  split.
  - apply (proj1 (addPerson_adds aliceState "   " "p2")).
    intros c Hc. cbn in Hc. destruct Hc as [<-|[<-|[<-|[]]]]; reflexivity.
  - destruct (proj2 (addPerson_adds aliceState " Bob " "p2"))
      as (st' & H1 & _ & H2 & _).
    + exists "B"%char. split; [cbn; tauto|reflexivity].
    + exists st'. split; [exact H1|]. rewrite H2. reflexivity.
Defined.

(** X2. [removePerson] keeps exactly the people with another id, in their
    order and as they are; it changes nothing when nobody has the id, and a
    second removal changes nothing. *)
Theorem removePerson_removes st personId :
  people (removePerson st personId)
  = filter (fun person => Person.id person ≠ personId) (people st) ∧
  (∀ person, person ∈ people (removePerson st personId) ↔
             person ∈ people st ∧ Person.id person ≠ personId) ∧
  sublist (people (removePerson st personId)) (people st) ∧
  ((∀ person, person ∈ people st → Person.id person ≠ personId) →
   removePerson st personId = st) ∧
  removePerson (removePerson st personId) personId = removePerson st personId.
Proof.
  rewrite !removePerson_eq. cbn [people set_people].
  split; [done|]. split; [|split; [|split]].
  - intros person. by rewrite list_elem_of_filter, (comm and).
  - apply sublist_filter.
  - intros Hno. rewrite filter_all by done. apply set_people_same.
  - by rewrite filter_twice.
Qed.

Lemma removePerson_removes_witness :
  removePerson editingState "carol" = editingState.
Proof.
  apply (proj1 (proj2 (proj2 (proj2
           (removePerson_removes editingState "carol"))))).
  intros person Hp. apply list_elem_of_In in Hp. cbn in Hp.
  destruct Hp as [<-|[<-|[]]]; discriminate.
Defined.

(** X3. Adding a person under an id that nobody has and removing that id again
    gives the state back. *)
Theorem removePerson_addPerson st name uuid :
  (∃ c, In c (list_ascii_of_string name) ∧ JS.isWhiteSpace c = false) →
  (∀ person, person ∈ people st → Person.id person ≠ uuid) →
  removePerson (addPerson st name uuid).1 uuid = st.
Proof.
  intros (c & Hc & Hws) Hfresh. unfold addPerson.
  destruct (String.eqb_spec (trim name) "") as [Ht|Ht].
  { rewrite trim_blank in Ht. rewrite (Ht c Hc) in Hws. done. }
  cbn [fst]. rewrite removePerson_eq, set_people_twice.
  change (people (set_people st ?ps)) with ps.
  rewrite filter_app, filter_all by done.
  rewrite filter_cons_False, filter_nil by (cbn; tauto).
  rewrite app_nil_r. apply set_people_same.
Qed.

Lemma removePerson_addPerson_witness :
  removePerson (addPerson aliceState " Bob " "p2").1 "p2" = aliceState.
Proof.
  apply (removePerson_addPerson aliceState " Bob " "p2").
  - exists "B"%char. split; [cbn; tauto|reflexivity].
  - intros person Hp. apply list_elem_of_singleton in Hp as ->. discriminate.
Defined.

(* ===================================================================== *)
(** * Item lists under the handlers *)
(* ===================================================================== *)

(** What a handler that maps [onPerson personId g] over the people did to
    the person at place [i]. *)
Lemma onPerson_at personId g (ps : list Person.t) i person person' :
  ps !! i = Some person →
  (onPerson personId g <$> ps) !! i = Some person' →
  (Person.id person = personId ∧ person' = g person) ∨
  (Person.id person ≠ personId ∧ person' = person).
Proof.
  intros Hi Hi'. rewrite (onPerson_lookup _ _ _ _ _ Hi) in Hi'.
  injection Hi' as <-. unfold onPerson.
  destruct (String.eqb_spec (Person.id person) personId); [by left|by right].
Qed.

Section SpliceAnyIndex.

Context {A : Type}.

Lemma relativeStart_range len start :
  0 <= len → 0 <= JS.relativeStart len start <= len.
Proof. unfold JS.relativeStart. destruct (Z.ltb_spec start 0); lia. Qed.

(** Whatever the arguments, [splice] keeps what it does not remove: the
    removed elements and the array afterwards make up the old array and
    the inserted elements. *)
Lemma splice_Permutation (l : list A) start deleteCount ins :
  ((JS.splice l start deleteCount ins).1 ++ (JS.splice l start deleteCount ins).2
   ≡ₚ l ++ ins)%list.
Proof.
  unfold JS.splice. cbn [fst snd].
  pose proof (relativeStart_range (Z.of_nat (length l)) start ltac:(lia)) as Ha.
  set (a := JS.relativeStart (Z.of_nat (length l)) start) in *.
  set (dc := Z.min (Z.max deleteCount 0) (Z.of_nat (length l) - a)).
  assert (0 <= dc) as Hdc by (unfold dc; lia).
  rewrite Z2Nat.inj_add by lia. rewrite <- drop_drop.
  rewrite <- (take_drop (Z.to_nat a) l) at 4.
  rewrite <- (take_drop (Z.to_nat dc) (drop (Z.to_nat a) l)) at 3.
  solve_Permutation.
Qed.

(** One element at most is removed when one is asked for. *)
Lemma splice_remove_one (l : list A) start :
  (JS.splice l start 1 []).1 = [] ∨ ∃ x, (JS.splice l start 1 []).1 = [x].
Proof.
  unfold JS.splice. cbn [fst].
  set (a := JS.relativeStart (Z.of_nat (length l)) start).
  destruct (Z.min (Z.max 1 0) (Z.of_nat (length l) - a)) as [|p|p] eqn:Hm;
    [by left| |by left].
  assert (p = 1%positive) as -> by lia.
  change (Z.to_nat 1) with 1%nat.
  destruct (drop (Z.to_nat a) l) as [|x k]; [by left|right]. by exists x.
Qed.

(** The first [splice] of a move removes something exactly when the list
    has an item and the source index is not beyond the last one. *)
Lemma splice_remove_defined (l : list A) start :
  (JS.splice l start 1 []).1 ≠ [] ↔ l ≠ [] ∧ start < Z.of_nat (length l).
Proof.
  unfold JS.splice, JS.relativeStart. cbn [fst].
  destruct (Z.ltb_spec start 0) as [Hneg|Hpos].
  - split.
    + intros H. split; [|lia]. intros ->. apply H.
      by rewrite drop_nil, take_nil.
    + intros [Hne _]. destruct l as [|x l]; [done|]. cbn [length].
      set (a := Z.max (Z.of_nat (S (length l)) + start) 0).
      assert (0 <= a < Z.of_nat (S (length l))) as Ha by (unfold a; lia).
      replace (Z.min (Z.max 1 0) (Z.of_nat (S (length l)) - a)) with 1 by lia.
      destruct (lookup_lt_is_Some_2 (x :: l) (Z.to_nat a)) as [y Hy];
        [cbn [length]; lia|].
      by rewrite (drop_S _ _ _ Hy).
  - split.
    + intros H. destruct (Z.ltb_spec start (Z.of_nat (length l))) as [Hlt|Hge].
      * split; [|done]. intros ->. cbn in Hlt. lia.
      * exfalso. apply H. rewrite (Z.min_r start) by lia.
        rewrite drop_ge by lia. apply take_nil.
    + intros [_ Hlt]. rewrite (Z.min_l start) by lia.
      replace (Z.min (Z.max 1 0) (Z.of_nat (length l) - start)) with 1 by lia.
      destruct (lookup_lt_is_Some_2 l (Z.to_nat start)) as [y Hy]; [lia|].
      by rewrite (drop_S _ _ _ Hy).
Qed.

End SpliceAnyIndex.

(** A move that is defined shuffles the items and no more. *)
Lemma moveItem_Permutation items src dst items' :
  moveItem items src dst = Some items' → items' ≡ₚ items.
Proof.
  unfold moveItem.
  pose proof (splice_Permutation items src 1 []) as H1.
  pose proof (splice_remove_one items src) as Hone.
  destruct (JS.splice items src 1 []) as [removed items1]. cbn [fst snd] in *.
  destruct removed as [|x rest]; [done|]. intros [= <-].
  destruct Hone as [?|[y Hy]]; [done|]. injection Hy as <- ->.
  pose proof (splice_Permutation items1 dst 0 [x]) as H2.
  assert ((JS.splice items1 dst 0 [x]).1 = []) as Hnil.
  { unfold JS.splice. cbn [fst].
    pose proof (relativeStart_range (Z.of_nat (length items1)) dst ltac:(lia)).
    replace (Z.min (Z.max 0 0) _) with 0 by lia. done. }
  rewrite Hnil in H2. cbn [app] in H2. rewrite H2.
  rewrite app_nil_r in H1. rewrite <- H1. solve_Permutation.
Qed.

(** X4. The move of [handleDragEnd] is defined exactly when the list has an
    item and the source index is not beyond the last one: a negative index
    counts from the end, and the destination may be any number. When it is
    defined, the items afterwards are a permutation of the items before. *)
Theorem moveItem_any_index items src dst :
  (is_Some (moveItem items src dst)
   ↔ items ≠ [] ∧ src < Z.of_nat (length items)) ∧
  (∀ items', moveItem items src dst = Some items' →
             items' ≡ₚ items ∧ length items' = length items).
Proof.
  split.
  - rewrite <- splice_remove_defined. unfold moveItem.
    destruct (JS.splice items src 1 []) as [[|x rest] items1]; cbn [fst].
    + split; [by intros [? ?]|done].
    + split; [done|]. intros _. by eexists.
  - intros items' H. apply moveItem_Permutation in H.
    split; [done|]. by apply Permutation_length.
Qed.

Lemma moveItem_any_index_witness :
  is_Some (moveItem [itemA; itemB; itemC] (-1) 99) ∧
  ∃ items', moveItem [itemA; itemB; itemC] (-1) 0 = Some items' ∧
            items' ≡ₚ [itemA; itemB; itemC].
Proof.
  split.
  - apply (proj1 (moveItem_any_index [itemA; itemB; itemC] (-1) 99)).
    split; [discriminate|cbn; lia].
  - destruct (proj2 (proj1 (moveItem_any_index [itemA; itemB; itemC] (-1) 0)))
      as [items' H]; [split; [discriminate|cbn; lia]|].
    exists items'. split; [exact H|].
    by apply (proj2 (moveItem_any_index [itemA; itemB; itemC] (-1) 0)).
Defined.

(** ** What each handler does to the list at one place *)

Lemma removeItem_at st personId itemId i person person' :
  people st !! i = Some person →
  people (removeItem st personId itemId) !! i = Some person' →
  (Person.id person = personId ∧
   Person.items person' = filter (survives itemId) (Person.items person)) ∨
  (Person.id person ≠ personId ∧ person' = person).
Proof.
  intros Hi Hi'. rewrite removeItem_people in Hi'.
  destruct (onPerson_at _ _ _ _ _ _ Hi Hi') as [[? ->]|[? ->]]; [left|right]; done.
Qed.

Lemma sortItemsByPrice_at fx st personId i person person' :
  people st !! i = Some person →
  people (sortItemsByPrice fx st personId) !! i = Some person' →
  Person.items person' ≡ₚ Person.items person.
Proof.
  intros Hi Hi'. rewrite sortItemsByPrice_people in Hi'.
  destruct (onPerson_at _ _ _ _ _ _ Hi Hi') as [[? ->]|[? ->]]; [|done].
  apply sort_Permutation.
Qed.

Lemma handleDragEnd_at st result personId st' i person person' :
  handleDragEnd st result personId = Some st' →
  people st !! i = Some person →
  people st' !! i = Some person' →
  Person.items person' ≡ₚ Person.items person.
Proof.
  intros H Hi Hi'. apply handleDragEnd_inv in H.
  destruct (destination result) as [dest|];
    [|subst; by assert (person' = person) as -> by congruence].
  destruct H as (_ & _ & Hall).
  destruct (Hall i person Hi) as (q & Hq & Hp).
  assert (q = person') as -> by congruence.
  destruct (String.eqb _ _); [|by subst].
  destruct Hp as (items' & Hm & ->). cbn.
  by eapply moveItem_Permutation.
Qed.

Lemma addItem_at st personId uuid i person person' :
  people st !! i = Some person →
  people (addItem st personId uuid) !! i = Some person' →
  (Person.id person = personId ∧
   Person.items person'
   = (Person.items person ++ [createdItem uuid (newItem st)])%list) ∨
  (Person.id person ≠ personId ∧ person' = person).
Proof.
  intros Hi Hi'. rewrite addItem_people in Hi'.
  destruct (onPerson_at _ _ _ _ _ _ Hi Hi') as [[? ->]|[? ->]]; [left|right]; done.
Qed.

(** Saving an edit whose form still carries the id under edit changes no
    id of the list. *)
Lemma saveEditedItem_at st personId e i person person' :
  editingItem st = Some e →
  editingItemId st = Some (EditingItem.id e) →
  people st !! i = Some person →
  people (saveEditedItem st personId) !! i = Some person' →
  itemIds (Person.items person') = itemIds (Person.items person).
Proof.
  intros He Hid Hi Hi'.
  destruct (decide (EditingItem.id e = "")) as [Hempty|Hne].
  { unfold saveEditedItem in Hi'. rewrite He, Hid, Hempty in Hi'. cbn in Hi'.
    congruence. }
  rewrite (saveEditedItem_people st personId e _ He Hid Hne) in Hi'.
  destruct (onPerson_at _ _ _ _ _ _ Hi Hi') as [[? ->]|[? ->]]; [|done].
  cbn. unfold itemIds. rewrite <- list_fmap_compose.
  apply list_fmap_ext. intros k item _. cbn.
  destruct (String.eqb_spec (WishlistItem.id item) (EditingItem.id e)); done.
Qed.

Lemma saveEditedItem_items st personId e i person person' :
  editingItem st = Some e →
  editingItemId st = Some (EditingItem.id e) →
  people st !! i = Some person →
  people (saveEditedItem st personId) !! i = Some person' →
  Person.items person'
  = (fun item =>
       if String.eqb (WishlistItem.id item) (EditingItem.id e)
       then editedItem e else item) <$> Person.items person ∨
  person' = person.
Proof.
  intros He Hid Hi Hi'.
  destruct (decide (EditingItem.id e = "")) as [Hempty|Hne].
  { unfold saveEditedItem in Hi'. rewrite He, Hid, Hempty in Hi'. cbn in Hi'.
    right. congruence. }
  rewrite (saveEditedItem_people st personId e _ He Hid Hne) in Hi'.
  destruct (onPerson_at _ _ _ _ _ _ Hi Hi') as [[? ->]|[? ->]]; [left|right]; done.
Qed.

(** ** Ids stay unique *)

Lemma uniqueIds_Permutation items items' :
  items' ≡ₚ items → uniqueIds items → uniqueIds items'.
Proof. unfold uniqueIds, itemIds. by intros ->. Qed.

(** X5. Removing an item, sorting and dragging never make two items of a
    list share an id: if the ids of a list are unique, they are so
    afterwards. *)
Theorem uniqueIds_rearranged fx st personId i person :
  people st !! i = Some person →
  uniqueIds (Person.items person) →
  (∀ itemId person',
     people (removeItem st personId itemId) !! i = Some person' →
     uniqueIds (Person.items person')) ∧
  (∀ person',
     people (sortItemsByPrice fx st personId) !! i = Some person' →
     uniqueIds (Person.items person')) ∧
  (∀ result st' person',
     handleDragEnd st result personId = Some st' →
     people st' !! i = Some person' →
     uniqueIds (Person.items person')).
Proof.
  intros Hi Hu. split; [|split].
  - intros itemId person' Hi'.
    destruct (removeItem_at _ _ _ _ _ _ Hi Hi') as [[_ ->]|[_ ->]]; [|done].
    unfold uniqueIds, itemIds. eapply sublist_NoDup; [exact Hu|].
    apply fmap_sublist, sublist_filter.
  - intros person' Hi'. eapply uniqueIds_Permutation; [|done].
    by eapply sortItemsByPrice_at.
  - intros result st' person' Hd Hi'. eapply uniqueIds_Permutation; [|done].
    by eapply handleDragEnd_at.
Qed.

Lemma uniqueIds_alice : uniqueIds (Person.items alice).
Proof.
  unfold uniqueIds. cbn. repeat constructor; rewrite ?list_elem_of_In;
    cbn; intros H; decompose [or] H; discriminate || done.
Qed.

Lemma uniqueIds_rearranged_witness :
  ∃ person',
    people (removeItem aliceState "alice" "B") !! 0%nat = Some person' ∧
    Person.items person' = [itemA; itemC] ∧
    uniqueIds (Person.items person').
Proof.
  eexists. split; [reflexivity|]. split; [reflexivity|].
  apply (proj1 (uniqueIds_rearranged fx_spec aliceState "alice" 0%nat alice
                  eq_refl uniqueIds_alice) "B").
  reflexivity.
Defined.

(** X6. Adding an item keeps the ids of a list unique when the new id is not
    in the list, and saving an edit leaves the ids of a list as they are,
    in their order, when the form carries the id under edit. *)
Theorem uniqueIds_added st personId i person :
  people st !! i = Some person →
  (∀ uuid person',
     uniqueIds (Person.items person) →
     uuid ∉ itemIds (Person.items person) →
     people (addItem st personId uuid) !! i = Some person' →
     uniqueIds (Person.items person')) ∧
  (∀ e person',
     editingItem st = Some e →
     editingItemId st = Some (EditingItem.id e) →
     people (saveEditedItem st personId) !! i = Some person' →
     itemIds (Person.items person') = itemIds (Person.items person)).
Proof.
  intros Hi. split.
  - intros uuid person' Hu Hfresh Hi'.
    destruct (addItem_at _ _ _ _ _ _ Hi Hi') as [[_ ->]|[_ ->]]; [|done].
    unfold uniqueIds, itemIds. rewrite fmap_app. apply NoDup_app.
    split; [done|]. split; [|apply NoDup_singleton].
    intros x Hx Hx'. apply list_elem_of_singleton in Hx' as ->. by apply Hfresh.
  - intros e person' He Hid Hi'.
    by apply (saveEditedItem_at _ _ _ _ _ _ He Hid Hi Hi').
Qed.

Lemma uniqueIds_added_witness :
  ∃ person',
    people (addItem aliceState "alice" "D") !! 0%nat = Some person' ∧
    itemIds (Person.items person') = ["A"; "B"; "C"; "D"] ∧
    uniqueIds (Person.items person').
Proof.
  eexists. split; [reflexivity|]. split; [reflexivity|].
  apply (proj1 (uniqueIds_added aliceState "alice" 0%nat alice eq_refl)
           "D" _ uniqueIds_alice); [|reflexivity].
  rewrite list_elem_of_In. cbn. intros H. decompose [or] H; discriminate || done.
Defined.

(** ** Dependencies stay closed *)

Lemma oneLevel_Permutation items items' :
  items' ≡ₚ items → oneLevel items → oneLevel items'.
Proof.
  intros Hp H item p Hin Hpar. rewrite Hp in Hin.
  destruct (H item p Hin Hpar) as (parent & ? & ? & ?).
  exists parent. by rewrite Hp.
Qed.

Lemma oneLevel_filter_survives itemId items :
  oneLevel items → oneLevel (filter (survives itemId) items).
Proof.
  intros H item p [[_ Hsurv] Hin]%list_elem_of_filter Hpar.
  destruct (H item p Hin Hpar) as (parent & Hpin & Hpid & Hptop).
  exists parent. split; [|done]. apply list_elem_of_filter. split; [|done].
  split; congruence.
Qed.

(** X7. In a list where every parent named is a top-level item of the list,
    this is still so after removing an item with its dependents, after
    sorting and after dragging. *)
Theorem oneLevel_rearranged fx st personId i person :
  people st !! i = Some person →
  oneLevel (Person.items person) →
  (∀ itemId person',
     people (removeItem st personId itemId) !! i = Some person' →
     oneLevel (Person.items person')) ∧
  (∀ person',
     people (sortItemsByPrice fx st personId) !! i = Some person' →
     oneLevel (Person.items person')) ∧
  (∀ result st' person',
     handleDragEnd st result personId = Some st' →
     people st' !! i = Some person' →
     oneLevel (Person.items person')).
Proof.
  intros Hi Ho. split; [|split].
  - intros itemId person' Hi'.
    destruct (removeItem_at _ _ _ _ _ _ Hi Hi') as [[_ ->]|[_ ->]]; [|done].
    by apply oneLevel_filter_survives.
  - intros person' Hi'. eapply oneLevel_Permutation; [|done].
    by eapply sortItemsByPrice_at.
  - intros result st' person' Hd Hi'. eapply oneLevel_Permutation; [|done].
    by eapply handleDragEnd_at.
Qed.

Lemma oneLevel_alice : oneLevel (Person.items alice).
Proof.
  intros item p Hin Hpar. exists itemA.
  apply list_elem_of_In in Hin. cbn in Hin.
  destruct Hin as [<-|[<-|[<-|[]]]]; cbn in Hpar; try discriminate;
    injection Hpar as <-; (split; [by left|done]).
Qed.

Lemma oneLevel_rearranged_witness :
  ∃ person',
    people (removeItem aliceState "alice" "B") !! 0%nat = Some person' ∧
    Person.items person' = [itemA; itemC] ∧
    oneLevel (Person.items person').
Proof.
  eexists. split; [reflexivity|]. split; [reflexivity|].
  apply (proj1 (oneLevel_rearranged fx_spec aliceState "alice" 0%nat alice
                  eq_refl oneLevel_alice) "B").
  reflexivity.
Defined.

(** X8. In a list where every parent named is a top-level item of the list,
    this is still so after adding an item that names no parent or a
    top-level item of the list; and after saving an edit that names no
    parent, or that gives an item without dependents a top-level item other
    than itself as parent. *)
Theorem oneLevel_added st personId i person :
  people st !! i = Some person →
  oneLevel (Person.items person) →
  (∀ uuid person',
     (∀ p, NewItem.parentId (newItem st) = Some p →
           ∃ parent, parent ∈ Person.items person ∧
                     WishlistItem.id parent = p ∧
                     WishlistItem.parentId parent = None) →
     people (addItem st personId uuid) !! i = Some person' →
     oneLevel (Person.items person')) ∧
  (∀ e person',
     editingItem st = Some e →
     editingItemId st = Some (EditingItem.id e) →
     (EditingItem.parentId e = None ∨
      (∀ item, item ∈ Person.items person →
               WishlistItem.parentId item ≠ Some (EditingItem.id e)) ∧
      ∃ parent, parent ∈ Person.items person ∧
                EditingItem.parentId e = Some (WishlistItem.id parent) ∧
                WishlistItem.id parent ≠ EditingItem.id e ∧
                WishlistItem.parentId parent = None) →
     people (saveEditedItem st personId) !! i = Some person' →
     oneLevel (Person.items person')).
Proof.
  intros Hi Ho. split.
  - intros uuid person' Hnew Hi'.
    destruct (addItem_at _ _ _ _ _ _ Hi Hi') as [[_ ->]|[_ ->]]; [|done].
    intros item p [Hin|Hin]%elem_of_app Hpar.
    + destruct (Ho item p Hin Hpar) as (parent & ? & ? & ?).
      exists parent. split; [|done]. apply elem_of_app. by left.
    + apply list_elem_of_singleton in Hin as ->. cbn in Hpar.
      destruct (Hnew p Hpar) as (parent & ? & ? & ?).
      exists parent. split; [|done]. apply elem_of_app. by left.
  - intros e person' He Hid Hnew Hi'.
    destruct (saveEditedItem_items _ _ _ _ _ _ He Hid Hi Hi') as [->| ->];
      [|done].
    set (put := fun item : WishlistItem.t =>
                  if String.eqb (WishlistItem.id item) (EditingItem.id e)
                  then editedItem e else item).
    assert (∀ parent, parent ∈ Person.items person →
                      WishlistItem.id parent ≠ EditingItem.id e →
                      parent ∈ put <$> Person.items person) as Hkeep.
    { intros parent Hin Hne. apply list_elem_of_fmap. exists parent.
      split; [|done]. unfold put.
      by rewrite (proj2 (String.eqb_neq _ _) Hne). }
    intros item' p (item & -> & Hin)%list_elem_of_fmap Hpar. unfold put in Hpar.
    destruct (String.eqb_spec (WishlistItem.id item) (EditingItem.id e))
      as [Heq|Hne].
    + cbn in Hpar. destruct Hnew as [Hnone|[_ (parent & Hpin & Hp & Hpne & Hptop)]];
        [congruence|].
      exists parent. split; [by apply Hkeep|]. split; [congruence|done].
    + destruct (Ho item p Hin Hpar) as (parent & Hpin & Hpid & Hptop).
      destruct (decide (WishlistItem.id parent = EditingItem.id e)) as [Hpe|Hpe].
      * destruct Hnew as [Hnone|[Hnochild _]].
        -- exists (editedItem e). split; [|by split; [cbn; congruence|]].
           apply list_elem_of_fmap. exists parent. split; [|done]. unfold put.
           by rewrite (proj2 (String.eqb_eq _ _) Hpe).
        -- exfalso. apply (Hnochild item Hin). congruence.
      * exists parent. split; [by apply Hkeep|done].
Qed.

(** Alice's list with item B in the edit form. *)
Lemma oneLevel_added_witness :
  ∃ person',
    people (saveEditedItem
              (set_people editingState [alice]) "alice") !! 0%nat
    = Some person' ∧
    WishlistItem.name <$> Person.items person' = ["A"; "Book"; "C"] ∧
    oneLevel (Person.items person').
Proof.
  eexists. split; [reflexivity|]. split; [reflexivity|].
  apply (proj2 (oneLevel_added (set_people editingState [alice])
                  "alice" 0%nat alice eq_refl oneLevel_alice) editB _
           eq_refl eq_refl); [|reflexivity].
  right. split.
  - intros item Hin. apply list_elem_of_In in Hin. cbn in Hin.
    destruct Hin as [<-|[<-|[<-|[]]]]; cbn; congruence.
  - exists itemA. split; [by left|]. by split; [|split].
Defined.

(** ** Removing twice, removing what is not there, removing what was added *)

Lemma onPerson_twice personId (g : Person.t → Person.t) (ps : list Person.t) :
  (∀ person, Person.id (g person) = Person.id person) →
  (∀ person, g (g person) = g person) →
  onPerson personId g <$> (onPerson personId g <$> ps) = onPerson personId g <$> ps.
Proof.
  intros Hid Hg. rewrite <- list_fmap_compose. apply list_fmap_ext.
  intros i person _. cbn. unfold onPerson at 2 3.
  destruct (String.eqb_spec (Person.id person) personId) as [Heq|Hne].
  - rewrite onPerson_target by (by rewrite Hid). apply Hg.
  - by apply onPerson_other.
Qed.

Lemma onPerson_same personId (g : Person.t → Person.t) (ps : list Person.t) :
  (∀ person, person ∈ ps → Person.id person = personId → g person = person) →
  onPerson personId g <$> ps = ps.
Proof.
  intros H. rewrite <- (list_fmap_id ps) at 2. apply list_fmap_ext.
  intros i person Hi. unfold onPerson. cbn.
  destruct (String.eqb_spec (Person.id person) personId); [|done].
  apply H; [|done]. by eapply list_elem_of_lookup_2.
Qed.

Lemma removeItem_eq st personId itemId :
  removeItem st personId itemId
  = set_people st
      (onPerson personId
         (fun person =>
            {| Person.id := Person.id person;
               Person.name := Person.name person;
               Person.items := filter (survives itemId) (Person.items person) |})
       <$> people st).
Proof. rewrite <- removeItem_people. reflexivity. Qed.

Lemma filter_survives_unused itemId items :
  unused itemId items → filter (survives itemId) items = items.
Proof. intros H. apply filter_all. intros item Hin. apply (H item Hin). Qed.

Lemma person_eta (person : Person.t) :
  {| Person.id := Person.id person; Person.name := Person.name person;
     Person.items := Person.items person |} = person.
Proof. by destruct person. Qed.

(** X9. Removing an item a second time changes nothing, and removing an id
    that neither is nor is depended on in the lists of [personId] leaves
    the whole state as it is. *)
Theorem removeItem_settles st personId itemId :
  removeItem (removeItem st personId itemId) personId itemId
  = removeItem st personId itemId ∧
  ((∀ person, person ∈ people st → Person.id person = personId →
              unused itemId (Person.items person)) →
   removeItem st personId itemId = st).
Proof.
  split.
  - rewrite !removeItem_eq. change (people (set_people st ?ps)) with ps.
    rewrite set_people_twice. f_equal. apply onPerson_twice; [done|].
    intros person. cbn. by rewrite filter_twice.
  - intros H. rewrite removeItem_eq. rewrite onPerson_same; [apply set_people_same|].
    intros person Hin Hid. rewrite filter_survives_unused by by apply H.
    apply person_eta.
Qed.

Lemma removeItem_settles_witness :
  removeItem aliceState "alice" "Z" = aliceState.
Proof.
  apply (proj2 (removeItem_settles aliceState "alice" "Z")).
  intros person Hin _. apply list_elem_of_singleton in Hin as ->.
  intros item Hin. apply list_elem_of_In in Hin. cbn in Hin.
  destruct Hin as [<-|[<-|[<-|[]]]]; cbn; split; congruence.
Defined.

(** X10. Adding an item under a fresh id and removing it again restores the
    lists of everybody: the removal takes the new item and nothing else. *)
Theorem removeItem_addItem st personId uuid :
  (∀ person, person ∈ people st → Person.id person = personId →
             unused uuid (Person.items person)) →
  people (removeItem (addItem st personId uuid) personId uuid) = people st.
Proof.
  intros H. rewrite removeItem_people, addItem_people.
  rewrite <- list_fmap_compose. rewrite <- (list_fmap_id (people st)) at 2.
  apply list_fmap_ext. intros i person Hi. cbn. unfold onPerson at 2.
  destruct (String.eqb_spec (Person.id person) personId) as [Heq|Hne].
  - rewrite onPerson_target by done. cbn.
    rewrite filter_app, filter_survives_unused
      by (apply H; [by eapply list_elem_of_lookup_2|done]).
    rewrite filter_cons_False, filter_nil, app_nil_r; [apply person_eta|].
    intros [Hid _]. by apply Hid.
  - by apply onPerson_other.
Qed.

Lemma removeItem_addItem_witness :
  people (removeItem (addItem aliceState "alice" "D") "alice" "D")
  = people aliceState.
Proof.
  apply (removeItem_addItem aliceState "alice" "D").
  intros person Hin _. apply list_elem_of_singleton in Hin as ->.
  intros item Hin. apply list_elem_of_In in Hin. cbn in Hin.
  destruct Hin as [<-|[<-|[<-|[]]]]; cbn; split; congruence.
Defined.

(** ** Dragging back *)

Lemma take_insert_here (l : list WishlistItem.t) (i : nat) x :
  l !! i = Some x →
  (take i (delete i l) ++ x :: drop i (delete i l))%list = l.
Proof.
  intros Hi. pose proof (lookup_lt_Some _ _ _ Hi) as Hlen.
  rewrite delete_take_drop.
  rewrite take_app_length' by (rewrite length_take; lia).
  rewrite drop_app_length' by (rewrite length_take; lia).
  by apply take_drop_middle.
Qed.

Lemma moveItem_length items src dst items' :
  moveItem items src dst = Some items' → length items' = length items.
Proof. intros H. apply Permutation_length. by eapply moveItem_Permutation. Qed.

(** Moving an item and then moving it from where it went to where it was
    gives the list back. *)
Lemma moveItem_back items src dst items' :
  validIndex items src → validIndex items dst →
  moveItem items src dst = Some items' →
  moveItem items' dst src = Some items.
Proof.
  intros Hs Hd Hm.
  destruct (lookup_lt_is_Some_2 items (Z.to_nat src)) as [x Hx];
    [unfold validIndex in Hs; lia|].
  pose proof (moveItem_length _ _ _ _ Hm) as Hlen.
  destruct (moveItem_spec _ _ _ _ Hs Hd Hm) as (Hat & _ & Hdel).
  rewrite Hx in Hat.
  rewrite (moveItem_valid items' dst src x); [| | |done].
  - rewrite Hdel. f_equal. by apply take_insert_here.
  - unfold validIndex in *. lia.
  - unfold validIndex in *. lia.
Qed.

(** Dropping an item where it was picked up gives the same list. *)
Lemma moveItem_same items src :
  validIndex items src → moveItem items src src = Some items.
Proof.
  intros Hs.
  destruct (lookup_lt_is_Some_2 items (Z.to_nat src)) as [x Hx];
    [unfold validIndex in Hs; lia|].
  rewrite (moveItem_valid items src src x) by done.
  f_equal. by apply take_insert_here.
Qed.

(** [handleDragEnd] with a destination, when the move succeeds for
    everybody it applies to. *)
Lemma handleDragEnd_to st result dest personId (ps' : list Person.t) :
  destination result = Some dest →
  length ps' = length (people st) →
  (∀ i person person',
     people st !! i = Some person → ps' !! i = Some person' →
     if String.eqb (Person.id person) personId then
       ∃ items',
         moveItem (Person.items person) (index (source result)) (index dest)
         = Some items' ∧
         person' = {| Person.id := Person.id person;
                      Person.name := Person.name person;
                      Person.items := items' |}
     else person' = person) →
  handleDragEnd st result personId = Some (set_people st ps').
Proof.
  intros Hdest Hlen Hall. unfold handleDragEnd. rewrite Hdest.
  match goal with |- mapM ?f _ ≫= _ = _ =>
    assert (mapM f (people st) = Some ps') as -> end; [|done].
  apply mapM_Some. apply Forall2_same_length_lookup. split; [done|].
  intros i person person' Hi Hi'. specialize (Hall i person person' Hi Hi').
  destruct (String.eqb _ _); [|by subst].
  destruct Hall as (items' & -> & ->). done.
Qed.

(** X11. After a drag within the list, dragging the item from where it was
    dropped to where it was picked up restores the state. *)
Theorem handleDragEnd_back st result dest personId st' :
  destination result = Some dest →
  (∀ person, person ∈ people st → Person.id person = personId →
             validIndex (Person.items person) (index (source result)) ∧
             validIndex (Person.items person) (index dest)) →
  handleDragEnd st result personId = Some st' →
  handleDragEnd st' {| source := dest; destination := Some (source result) |}
    personId
  = Some st.
Proof.
  intros Hdest Hvalid Hd. apply handleDragEnd_inv in Hd. rewrite Hdest in Hd.
  destruct Hd as (Hst' & Hlen & Hall).
  replace (Some st) with (Some (set_people st' (people st)))
    by (rewrite Hst', set_people_twice; f_equal; apply set_people_same).
  apply (handleDragEnd_to st' _ (source result)); [done|done|].
  intros i person' person Hi' Hi. cbn [source].
  destruct (Hall i person Hi) as (q & Hq & Hp).
  assert (q = person') as -> by congruence.
  destruct (String.eqb_spec (Person.id person) personId) as [Heq|Hne].
  - destruct Hp as (items' & Hm & ->). cbn [Person.id Person.items].
    rewrite (proj2 (String.eqb_eq _ _) Heq).
    exists (Person.items person).
    destruct (Hvalid person (list_elem_of_lookup_2 _ _ _ Hi) Heq) as [Hs Hdv].
    split; [by eapply moveItem_back|]. cbn. by rewrite person_eta.
  - subst person'. by rewrite (proj2 (String.eqb_neq _ _) Hne).
Qed.

Lemma handleDragEnd_back_witness :
  ∃ st',
    handleDragEnd aliceState
      {| source := {| index := 0 |}; destination := Some {| index := 2 |} |}
      "alice" = Some st' ∧
    handleDragEnd st'
      {| source := {| index := 2 |}; destination := Some {| index := 0 |} |}
      "alice" = Some aliceState.
Proof.
  destruct (handleDragEnd aliceState
              {| source := {| index := 0 |}; destination := Some {| index := 2 |} |}
              "alice") as [st'|] eqn:Hd; [|exfalso; vm_compute in Hd; discriminate Hd].
  exists st'. split; [done|].
  apply (handleDragEnd_back aliceState
           {| source := {| index := 0 |}; destination := Some {| index := 2 |} |}
           {| index := 2 |} "alice" st' eq_refl); [|exact Hd].
  intros person Hin _. apply list_elem_of_singleton in Hin as ->.
  unfold validIndex. cbn. lia.
Defined.

(** X12. Dropping an item where it was picked up changes nothing, whoever's
    list it is. *)
Theorem handleDragEnd_same_place st result personId :
  destination result = Some (source result) →
  (∀ person, person ∈ people st → Person.id person = personId →
             validIndex (Person.items person) (index (source result))) →
  handleDragEnd st result personId = Some st.
Proof.
  intros Hdest Hvalid.
  replace (Some st) with (Some (set_people st (people st)))
    by (f_equal; apply set_people_same).
  apply (handleDragEnd_to st _ (source result)); [done|done|].
  intros i person person' Hi Hi'. assert (person' = person) as -> by congruence.
  destruct (String.eqb_spec (Person.id person) personId) as [Heq|Hne]; [|done].
  exists (Person.items person). split; [|by rewrite person_eta].
  apply moveItem_same, Hvalid; [|done]. by eapply list_elem_of_lookup_2.
Qed.

Lemma handleDragEnd_same_place_witness :
  handleDragEnd aliceState
    {| source := {| index := 1 |}; destination := Some {| index := 1 |} |}
    "alice" = Some aliceState.
Proof.
  apply (handleDragEnd_same_place aliceState
           {| source := {| index := 1 |}; destination := Some {| index := 1 |} |}
           "alice" eq_refl).
  intros person Hin _. apply list_elem_of_singleton in Hin as ->.
  unfold validIndex. cbn. lia.
Defined.

(** ** The group total and the other handlers *)

Lemma find_head_filter {A} (f : A → bool) (P : A → Prop)
    `{!∀ x, Decision (P x)} (l : list A) :
  (∀ x, f x = true ↔ P x) → List.find f l = head (filter P l).
Proof.
  intros Hf. induction l as [|x l IH]; [done|].
  change (List.find f (x :: l)) with (if f x then Some x else List.find f l).
  destruct (f x) eqn:Hfx.
  - by rewrite filter_cons_True by by apply Hf.
  - rewrite filter_cons_False; [done|]. rewrite <- Hf. congruence.
Qed.

(** [calculateGroupTotal] in one expression: the first item with the id,
    and the required children in list order. *)
Lemma calculateGroupTotal_eq fx st items parentId :
  calculateGroupTotal fx st items parentId
  = match head (filter (fun item => WishlistItem.id item = parentId) items) with
    | None => 0%float
    | Some parent =>
        sumFrom (displayPrice fx st parent)
          (displayPrice fx st <$> filter (requiredChildOf parentId) items)
    end.
Proof.
  unfold calculateGroupTotal.
  rewrite (find_head_filter _ (fun item => WishlistItem.id item = parentId))
    by (intros x; apply String.eqb_eq).
  destruct (head _); [|done].
  rewrite fold_left_sumFrom. do 2 f_equal.
  apply filter_callback. intros x. unfold requiredChildOf.
  by rewrite andb_true_iff, strictEq_Some, truthy_flag_true.
Qed.

Lemma filter_filter_keeps {A} (P Q : A → Prop)
    `{!∀ x, Decision (P x)} `{!∀ x, Decision (Q x)} (l : list A) :
  (∀ x, x ∈ l → P x → Q x) → filter P (filter Q l) = filter P l.
Proof.
  intros HPQ. induction l as [|x l IH]; [done|].
  assert (filter P (filter Q l) = filter P l) as IH'.
  { apply IH. intros y Hy. apply HPQ. by right. }
  destruct (decide (Q x)) as [HQ|HQ].
  - rewrite (filter_cons_True Q) by done.
    destruct (decide (P x)).
    + rewrite !(filter_cons_True P) by done. by rewrite IH'.
    + rewrite !(filter_cons_False P) by done. done.
  - rewrite (filter_cons_False Q) by done.
    rewrite (filter_cons_False P); [done|].
    intros HP. apply HQ, HPQ; [by left|done].
Qed.

Lemma filter_none {A} (P : A → Prop) `{!∀ x, Decision (P x)} (l : list A) :
  (∀ x, x ∈ l → ¬ P x) → filter P l = [].
Proof.
  intros HP. induction l as [|x l IH]; [done|].
  rewrite filter_cons_False by (apply HP; by left).
  apply IH. intros y Hy. apply HP. by right.
Qed.

(** X13. After [removeItem] the group total of the removed id is zero, in the
    list it was removed from; and the group total of another id is what it
    was, provided the removal takes neither an item with that id nor one
    of its required children. *)
Theorem calculateGroupTotal_removeItem fx st personId itemId i person person' :
  people st !! i = Some person →
  Person.id person = personId →
  people (removeItem st personId itemId) !! i = Some person' →
  calculateGroupTotal fx (removeItem st personId itemId)
    (Person.items person') itemId = 0%float ∧
  ∀ parentId,
    (∀ item, item ∈ Person.items person →
             WishlistItem.id item = parentId ∨ requiredChildOf parentId item →
             survives itemId item) →
    calculateGroupTotal fx (removeItem st personId itemId)
      (Person.items person') parentId
    = calculateGroupTotal fx st (Person.items person) parentId.
Proof.
  intros Hi Hid Hi'.
  destruct (removeItem_at _ _ _ _ _ _ Hi Hi') as [[_ ->]|[Hne _]]; [|done].
  split.
  - rewrite calculateGroupTotal_eq.
    rewrite list_filter_filter, filter_none; [done|].
    intros item _ [Heq [Hne _]]. done.
  - intros parentId Hkeep. rewrite !calculateGroupTotal_eq.
    rewrite !filter_filter_keeps by (intros x Hx HP; apply Hkeep; auto).
    reflexivity.
Qed.

Lemma calculateGroupTotal_removeItem_witness :
  calculateGroupTotal fx_spec (removeItem aliceState "alice" "C") [itemA; itemB] "C"
  = 0%float ∧
  calculateGroupTotal fx_spec (removeItem aliceState "alice" "C") [itemA; itemB] "A"
  = calculateGroupTotal fx_spec aliceState [itemA; itemB; itemC] "A".
Proof.
  pose proof (calculateGroupTotal_removeItem fx_spec aliceState "alice" "C" 0%nat
                alice {| Person.id := "alice"; Person.name := "Alice";
                         Person.items := [itemA; itemB] |}
                eq_refl eq_refl eq_refl) as [H0 H].
  split; [exact H0|]. apply H.
  intros item Hin Hor. apply list_elem_of_In in Hin. cbn in Hin.
  destruct Hin as [<-|[<-|[<-|[]]]]; try (split; cbn; congruence).
  destruct Hor as [Hor|[_ Hor]]; cbn in Hor; discriminate Hor.
Defined.

(** ** A price that is no number *)

Lemma add_nan_l (x : float) : (nan + x)%float = nan.
Proof. apply Prim2SF_inj. rewrite add_spec. reflexivity. Qed.

Lemma add_nan_r (x : float) : (x + nan)%float = nan.
Proof.
  apply Prim2SF_inj. rewrite add_spec. change (Prim2SF nan) with S754_nan.
  by destruct (Prim2SF x) as [[]|[]| |[]].
Qed.

Lemma sumFrom_nan_init xs : sumFrom nan xs = nan.
Proof.
  induction xs as [|x xs IH]; [done|]. unfold sumFrom in *. cbn.
  by rewrite add_nan_l.
Qed.

Lemma sumFrom_nan init xs : init = nan ∨ nan ∈ xs → sumFrom init xs = nan.
Proof.
  intros [->|Hin]; [apply sumFrom_nan_init|].
  revert init. induction xs as [|x xs IH]; intros init.
  { by apply elem_of_nil in Hin. }
  apply elem_of_cons in Hin as [<-|Hin].
  - unfold sumFrom. cbn. rewrite add_nan_r. apply sumFrom_nan_init.
  - unfold sumFrom in *. cbn. by apply IH.
Qed.

(** An item whose price is [NaN] is shown as [NaN], when the conversion
    makes no number of [NaN]. *)
Lemma displayPrice_nan fx st item :
  (∀ rs f t r, fx rs nan f t = Some r → r = nan) →
  WishlistItem.price item = nan →
  displayPrice fx st item = nan.
Proof.
  intros Hfx Hp. unfold displayPrice, convertPrice. rewrite Hp.
  destruct (_ || _); [reflexivity|].
  destruct (fx _ _ _ _) as [r|] eqn:Hr; [|reflexivity].
  by rewrite (Hfx _ _ _ _ Hr).
Qed.

Lemma head_filter_unique {A B} `{EqDecision B} (f : A → B) (l : list A) x :
  NoDup (f <$> l) → x ∈ l → head (filter (fun y => f y = f x) l) = Some x.
Proof.
  induction l as [|y l IH]; intros Hnd Hin; [by apply elem_of_nil in Hin|].
  rewrite fmap_cons in Hnd. apply NoDup_cons in Hnd as [Hy Hnd].
  apply elem_of_cons in Hin as [<-|Hin].
  - by rewrite filter_cons_True.
  - rewrite filter_cons_False; [by apply IH|].
    intros Heq. apply Hy. rewrite Heq. by apply list_elem_of_fmap_2.
Qed.

(** X14. One price that is no number spoils the total of its group: if the
    parent or one of the required children has the price [NaN] (as an item
    stored from an unparsable price text has), the group total is [NaN]. *)
Theorem calculateGroupTotal_nan fx st items parent :
  (∀ rs f t r, fx rs nan f t = Some r → r = nan) →
  uniqueIds items →
  parent ∈ items →
  (WishlistItem.price parent = nan ∨
   ∃ child, child ∈ items ∧
            requiredChildOf (WishlistItem.id parent) child ∧
            WishlistItem.price child = nan) →
  calculateGroupTotal fx st items (WishlistItem.id parent) = nan.
Proof.
  intros Hfx Hu Hin Hnan. rewrite calculateGroupTotal_eq.
  rewrite (head_filter_unique WishlistItem.id) by done.
  apply sumFrom_nan. destruct Hnan as [Hp|(child & Hc & Hreq & Hp)].
  - left. by apply displayPrice_nan.
  - right. rewrite <- (displayPrice_nan fx st child Hfx Hp).
    apply list_elem_of_fmap_2, list_elem_of_filter. done.
Qed.

Lemma fx_spec_nan rs f t r : fx_spec rs nan f t = Some r → r = nan.
Proof.
  unfold fx_spec. intros [= <-]. apply Prim2SF_inj. rewrite mul_spec. reflexivity.
Qed.

Lemma calculateGroupTotal_nan_witness :
  calculateGroupTotal fx_spec aliceState
    [itemA; createdItem "D" {| NewItem.name := "D"; NewItem.price := "abc";
                               NewItem.currency := "USD"; NewItem.link := "";
                               NewItem.parentId := Some "A";
                               NewItem.isRequired := true |}]
    (WishlistItem.id itemA)
  = nan.
Proof.
  apply (calculateGroupTotal_nan fx_spec aliceState _ itemA fx_spec_nan).
  - unfold uniqueIds. cbn. repeat constructor; rewrite ?list_elem_of_In;
      cbn; intros H; decompose [or] H; discriminate || done.
  - by left.
  - right. eexists. split; [right; left|]. split; [done|]. reflexivity.
Defined.

(** ** The parent of an item and the total the view shows *)

Lemma head_filter_Some {A} (P : A → Prop) `{!∀ x, Decision (P x)} (l : list A) x :
  head (filter P l) = Some x → x ∈ l ∧ P x.
Proof.
  intros Hh. assert (x ∈ filter P l) as Hin.
  { destruct (filter P l) as [|y k]; [done|]. cbn in Hh. assert (y = x) as ->
      by congruence. by left. }
  by apply list_elem_of_filter in Hin as [? ?].
Qed.

Lemma head_filter_None {A} (P : A → Prop) `{!∀ x, Decision (P x)} (l : list A) :
  head (filter P l) = None → ∀ x, x ∈ l → ¬ P x.
Proof.
  intros Hh x Hin HP. assert (x ∈ filter P l) as Hx by by apply list_elem_of_filter.
  destruct (filter P l); [by apply elem_of_nil in Hx|done].
Qed.

(** X15. [getParentItem] finds an item of the list with the id asked for; it
    finds none exactly when no parent is named ([null], [undefined] or the
    empty string) or no item has the id. In a list with unique ids in which
    every parent named is a top-level item of the list, every item naming a
    parent gets it, and it is a top-level item. *)
Theorem getParentItem_parent items :
  (∀ o,
     match getParentItem items o with
     | Some parent =>
         parent ∈ items ∧ o = Some (WishlistItem.id parent) ∧
         WishlistItem.id parent ≠ ""
     | None =>
         o = None ∨ o = Some "" ∨
         ∃ p, o = Some p ∧ ∀ item, item ∈ items → WishlistItem.id item ≠ p
     end) ∧
  (oneLevel items →
   ∀ item p,
     item ∈ items → WishlistItem.parentId item = Some p → p ≠ "" →
     ∃ parent,
       getParentItem items (WishlistItem.parentId item) = Some parent ∧
       parent ∈ items ∧ WishlistItem.id parent = p ∧
       (uniqueIds items → WishlistItem.parentId parent = None)).
Proof.
  assert (∀ p, p ≠ "" →
               getParentItem items (Some p)
               = head (filter (fun item => WishlistItem.id item = p) items))
    as Hget.
  { intros p Hp. unfold getParentItem. cbn.
    rewrite (proj2 (String.eqb_neq _ _) Hp). cbn.
    apply find_head_filter. intros x. apply String.eqb_eq. }
  split.
  - intros [p|]; [|by left].
    destruct (decide (p = "")) as [->|Hp]; [by right; left|].
    rewrite (Hget p Hp). destruct (head _) as [parent|] eqn:Hh.
    + apply head_filter_Some in Hh as [Hin <-]. done.
    + right; right. exists p. split; [done|].
      exact (head_filter_None _ _ Hh).
  - intros Ho item p Hin Hpar Hp. rewrite Hpar, (Hget p Hp).
    destruct (Ho item p Hin Hpar) as (parent & Hpin & Hpid & Hptop).
    destruct (head _) as [found|] eqn:Hh.
    + exists found. split; [done|].
      pose proof Hh as [Hfin Hfid]%head_filter_Some. split; [done|].
      split; [done|]. intros Hu.
      rewrite <- Hpid in Hh.
      rewrite (head_filter_unique WishlistItem.id) in Hh by done.
      congruence.
    + exfalso. exact (head_filter_None _ _ Hh parent Hpin Hpid).
Qed.

Lemma getParentItem_parent_witness :
  ∃ parent,
    getParentItem [itemA; itemB; itemC] (WishlistItem.parentId itemB) = Some parent ∧
    parent ∈ [itemA; itemB; itemC] ∧ WishlistItem.id parent = "A".
Proof.
  assert (oneLevel [itemA; itemB; itemC]) as Ho.
  { intros item p Hin Hpar. exists itemA.
    apply list_elem_of_In in Hin. cbn in Hin.
    destruct Hin as [<-|[<-|[<-|[]]]]; cbn in Hpar; try discriminate;
      injection Hpar as <-; (split; [by left|done]). }
  destruct (proj2 (getParentItem_parent [itemA; itemB; itemC]) Ho itemB "A")
    as (parent & Hget & Hin & Hid & _); [by right; left|done|done|].
  by exists parent.
Defined.

(** X16. The view shows a "total with required items" exactly for the items
    that are not in the edit form, name no parent and have a required
    child in the list; with unique ids, the total shown is the display
    price of the item itself with those of its required children, of which
    there is at least one. *)
Theorem showsGroupTotal_total fx st items item :
  (showsGroupTotal st items item = true ↔
   ¬ (editingItemId st = Some (WishlistItem.id item) ∧ is_Some (editingItem st)) ∧
   truthy_text (WishlistItem.parentId item) = false ∧
   ∃ child, child ∈ items ∧ requiredChildOf (WishlistItem.id item) child) ∧
  (uniqueIds items → item ∈ items → showsGroupTotal st items item = true →
   filter (requiredChildOf (WishlistItem.id item)) items ≠ [] ∧
   calculateGroupTotal fx st items (WishlistItem.id item)
   = sumFrom (displayPrice fx st item)
       (displayPrice fx st
          <$> filter (requiredChildOf (WishlistItem.id item)) items)).
Proof.
  assert (underEdit st item = false ↔
          ¬ (editingItemId st = Some (WishlistItem.id item) ∧
             is_Some (editingItem st))) as Hedit.
  { unfold underEdit. rewrite andb_false_iff. split.
    - intros [Hid|Hform] [Heq Hsome].
      + apply (proj2 (strictEq_Some _ _)) in Heq. congruence.
      + destruct Hsome as [e He]. by rewrite He in Hform.
    - intros Hno.
      destruct (JS.strictEq (editingItemId st) (WishlistItem.id item)) eqn:Hid;
        [|by left].
      right. destruct (editingItem st) as [e|] eqn:He; [|done].
      destruct Hno. split; [by apply strictEq_Some|by exists e]. }
  assert (showsGroupTotal st items item = true ↔
          ¬ (editingItemId st = Some (WishlistItem.id item) ∧
             is_Some (editingItem st)) ∧
          truthy_text (WishlistItem.parentId item) = false ∧
          ∃ child, child ∈ items ∧ requiredChildOf (WishlistItem.id item) child)
    as Hshow.
  { unfold showsGroupTotal.
    rewrite !andb_true_iff, !negb_true_iff, existsb_exists, Hedit.
    do 2 apply and_iff_compat_l. split.
    - intros (child & Hin & Hc). exists child.
      rewrite list_elem_of_In. split; [done|].
      by apply andb_true_iff in Hc as [?%strictEq_Some ?%truthy_flag_true].
    - intros (child & Hin & Hpar & Hreq). exists child.
      rewrite <- list_elem_of_In. split; [done|].
      apply andb_true_iff. by rewrite strictEq_Some, truthy_flag_true. }
  split; [exact Hshow|].
  intros Hu Hin (_ & _ & child & Hc & Hreq)%Hshow. split.
  - intros Hnil.
    assert (child ∈ filter (requiredChildOf (WishlistItem.id item)) items)
      as Hx by by apply list_elem_of_filter.
    rewrite Hnil in Hx. by apply elem_of_nil in Hx.
  - rewrite calculateGroupTotal_eq.
    by rewrite (head_filter_unique WishlistItem.id) by done.
Qed.

(** Alice's item A has its total shown; it is not shown while A is in the
    edit form. *)
Lemma showsGroupTotal_total_witness :
  showsGroupTotal (startEditingItem aliceState itemA) [itemA; itemB; itemC] itemA
  = false ∧
  filter (requiredChildOf (WishlistItem.id itemA)) [itemA; itemB; itemC] ≠ [] ∧
  calculateGroupTotal fx_spec aliceState [itemA; itemB; itemC]
    (WishlistItem.id itemA)
  = sumFrom (displayPrice fx_spec aliceState itemA)
      (displayPrice fx_spec aliceState
         <$> filter (requiredChildOf (WishlistItem.id itemA))
               [itemA; itemB; itemC]).
Proof.
  split; [reflexivity|].
  apply (proj2 (showsGroupTotal_total fx_spec aliceState [itemA; itemB; itemC]
                  itemA)).
  - exact uniqueIds_alice.
  - by left.
  - reflexivity.
Defined.

(* ===================================================================== *)
(** * Digit strings *)
(* ===================================================================== *)

Section DigitStrings.

Import Decimal DecimalPos.Unsigned.

Lemma string_app_cons c (s1 s2 : string) : String c s1 ++ s2 = String c (s1 ++ s2).
Proof. reflexivity. Qed.

Lemma string_app_empty_l (s : string) : "" ++ s = s.
Proof. reflexivity. Qed.

Lemma scan_digits_all d acc cnt r :
  all_digits d = true →
  JS.scan_digits acc cnt (d ++ r)
  = JS.scan_digits (value_from acc d) (cnt + Z.of_nat (String.length d)) r.
Proof.
  revert acc cnt. induction d as [|c d IH]; intros acc cnt Hd.
  - cbn. by rewrite Z.add_0_r.
  - cbn [all_digits] in Hd.
    change (String c d ++ r) with (String c (d ++ r)).
    cbn [JS.scan_digits value_from String.length].
    destruct (JS.digit_of c) as [v|]; [|done].
    rewrite IH by done. f_equal. lia.
Qed.

Lemma scan_digits_stops acc cnt r :
  stops r → JS.scan_digits acc cnt r = (acc, cnt, r).
Proof. destruct r as [|c r]; [done|]. cbn. by intros ->. Qed.

Lemma scan_digits_text d acc cnt r :
  all_digits d = true → stops r →
  JS.scan_digits acc cnt (d ++ r)
  = (value_from acc d, cnt + Z.of_nat (String.length d), r).
Proof. intros Hd Hr. by rewrite scan_digits_all, scan_digits_stops. Qed.

Lemma all_digits_app d1 d2 :
  all_digits (d1 ++ d2) = all_digits d1 && all_digits d2.
Proof.
  induction d1 as [|c d1 IH]; [done|].
  change (String c d1 ++ d2) with (String c (d1 ++ d2)). cbn [all_digits].
  destruct (JS.digit_of c); [exact IH|done].
Qed.

Lemma value_from_app d1 d2 acc :
  all_digits d1 = true →
  value_from acc (d1 ++ d2) = value_from (value_from acc d1) d2.
Proof.
  revert acc. induction d1 as [|c d1 IH]; intros acc Hd; [done|].
  change (String c d1 ++ d2) with (String c (d1 ++ d2)).
  cbn [all_digits value_from] in *.
  destruct (JS.digit_of c); [by apply IH|done].
Qed.

Lemma string_length_app (s1 s2 : string) :
  String.length (s1 ++ s2) = (String.length s1 + String.length s2)%nat.
Proof.
  induction s1 as [|c s1 IH]; [done|]. rewrite string_app_cons. cbn [String.length].
  by rewrite IH.
Qed.

Lemma string_app_empty_r (s : string) : s ++ "" = s.
Proof. induction s as [|c s IH]; [done|]. by rewrite string_app_cons, IH. Qed.

(** *** Runs of zeros *)

Lemma repeat0_digits j : all_digits (JS.repeat0 j) = true.
Proof. induction j; [done|]. cbn. done. Qed.

Lemma repeat0_length j : String.length (JS.repeat0 j) = j.
Proof. induction j; cbn; [done|]. by f_equal. Qed.

Lemma repeat0_value j acc : value_from acc (JS.repeat0 j) = acc * 10 ^ Z.of_nat j.
Proof.
  revert acc. induction j as [|j IH]; intros acc.
  - cbn. lia.
  - cbn [JS.repeat0 value_from]. change (JS.digit_of "0") with (Some 0).
    cbn match. rewrite IH, Nat2Z.inj_succ, Z.pow_succ_r by lia. lia.
Qed.

(** *** The digits of a number *)

Lemma uint_digits u : all_digits (NilEmpty.string_of_uint u) = true.
Proof. induction u; cbn; done. Qed.

Lemma uint_length u :
  Z.of_nat (String.length (NilEmpty.string_of_uint u)) = Z.of_N (usize u).
Proof. induction u; cbn [NilEmpty.string_of_uint String.length usize]; lia. Qed.

Lemma uint_value u acc :
  value_from acc (NilEmpty.string_of_uint u)
  = acc * 10 ^ Z.of_N (usize u) + Z.of_N (of_lu (rev u)).
Proof.
  revert acc.
  induction u as [|u IH|u IH|u IH|u IH|u IH|u IH|u IH|u IH|u IH|u IH];
    intros acc;
    [cbn; lia|..];
    cbn [NilEmpty.string_of_uint value_from usize];
    match goal with
    | |- context [JS.digit_of ?c] =>
        let v := eval vm_compute in (JS.digit_of c) in
        change (JS.digit_of c) with v
    end;
    cbn match;
    unfold rev; cbn [revapp]; rewrite (of_lu_revapp u);
    rewrite IH; cbn [of_lu]; rewrite N2Z.inj_succ, Z.pow_succ_r by lia;
    rewrite N2Z.inj_add, N2Z.inj_mul, N2Z.inj_pow;
    change (Z.of_N 10) with 10; lia.
Qed.

Lemma digits_uint s :
  JS.digits s = NilEmpty.string_of_uint (N.to_uint (Z.to_N s)).
Proof.
  unfold JS.digits, NilZero.string_of_uint.
  destruct (N.to_uint (Z.to_N s)) eqn:Hu; try done.
  exfalso. destruct (Z.to_N s) as [|p]; [done|].
  by apply (DecimalPos.Unsigned.to_uint_nonnil p).
Qed.

Lemma digits_all s : all_digits (JS.digits s) = true.
Proof. rewrite digits_uint. apply uint_digits. Qed.

Lemma digits_value s acc :
  0 <= s →
  value_from acc (JS.digits s) = acc * 10 ^ JSNumber.size s + s.
Proof.
  intros Hs. unfold JSNumber.size. rewrite digits_uint, uint_value, uint_length.
  rewrite <- DecimalPos.Unsigned.of_uint_alt.
  change (Pos.of_uint ?u) with (N.of_uint u).
  rewrite DecimalN.Unsigned.of_to. lia.
Qed.

Lemma digits_nonempty s : JS.digits s ≠ "".
Proof.
  rewrite digits_uint. destruct (N.to_uint (Z.to_N s)) eqn:Hu; try done.
  destruct (Z.to_N s) as [|p]; [done|].
  by apply DecimalPos.Unsigned.to_uint_nonnil in Hu.
Qed.

Lemma size_pos s : 0 < JSNumber.size s.
Proof.
  unfold JSNumber.size. pose proof (digits_nonempty s).
  destruct (JS.digits s); [done|]. cbn [String.length]. lia.
Qed.

End DigitStrings.

(* ===================================================================== *)
(** * Reading what [Number::toString] writes *)
(* ===================================================================== *)

Section Reading.

(** A digit is no white space, no sign, no point and not the head of
    [Infinity]. *)
Lemma digit_head c v r :
  JS.digit_of c = Some v →
  JS.trimStart (String c r) = String c r ∧
  JS.scan_sign (String c r) = (false, String c r) ∧
  String.prefix "Infinity" (String c r) = false.
Proof.
  destruct c as [[] [] [] [] [] [] [] []]; intros H;
    try (vm_compute in H; discriminate H); done.
Qed.

Lemma all_digits_head d :
  all_digits d = true → d ≠ "" →
  ∃ c v d', d = String c d' ∧ JS.digit_of c = Some v.
Proof.
  destruct d as [|c d']; [done|]. cbn. intros H _.
  destruct (JS.digit_of c) as [v|] eqn:Hc; [|done]. by exists c, v, d'.
Qed.

Lemma scan_exponent_text c : JS.scan_exponent (exponent_text c) = c.
Proof.
  unfold exponent_text. rewrite string_app_cons, string_app_empty_l.
  cbn [JS.scan_exponent]. change (Ascii.eqb "e" "e") with true. cbn [orb].
  assert (∀ v, JS.scan_digits 0 0 (JS.digits v)
               = (value_from 0 (JS.digits v), 0 + JSNumber.size v, "")) as Hd.
  { intros v. rewrite <- (string_app_empty_r (JS.digits v)) at 1.
    apply scan_digits_text; [apply digits_all|done]. }
  pose proof (size_pos (Z.abs c)) as Hsz.
  destruct (Z.ltb_spec c 0) as [Hc|Hc];
    rewrite string_app_cons, string_app_empty_l; cbn [JS.scan_sign];
    rewrite Hd, digits_value by lia;
    (destruct (Z.eqb_spec (0 + JSNumber.size (Z.abs c)) 0); [lia|]); lia.
Qed.

Lemma literal_end_stops ex : literal_end ex → stops ex.
Proof. intros [->|[c ->]]; done. Qed.

Lemma literal_end_no_point ex (M : Z) :
  literal_end ex →
  match ex with
  | String "." s' => JS.scan_digits M 0 s'
  | _ => (M, 0, ex)
  end = (M, 0, ex).
Proof. intros [->|[c ->]]; done. Qed.

(** A literal without a point. *)
Lemma scan_unsigned_whole ip ex :
  all_digits ip = true → ip ≠ "" → literal_end ex →
  JS.scan_unsigned (ip ++ ex)
  = Some (JS.LDecimal (value_from 0 ip) (JS.scan_exponent ex)).
Proof.
  intros Hip Hne Hex. destruct (all_digits_head ip Hip Hne) as (c & v & d' & -> & Hc).
  unfold JS.scan_unsigned. rewrite string_app_cons.
  rewrite (proj2 (proj2 (digit_head c v _ Hc))). rewrite <- string_app_cons.
  rewrite scan_digits_text by auto using literal_end_stops.
  rewrite literal_end_no_point by done.
  destruct (Z.eqb_spec (0 + Z.of_nat (String.length (String c d')) + 0) 0) as [H0|_].
  { cbn [String.length] in H0. lia. }
  by rewrite Z.sub_0_r.
Qed.

(** A literal with a point. *)
Lemma scan_unsigned_point ip fp ex :
  all_digits ip = true → ip ≠ "" → all_digits fp = true → literal_end ex →
  JS.scan_unsigned (ip ++ "." ++ fp ++ ex)
  = Some (JS.LDecimal (value_from (value_from 0 ip) fp)
            (JS.scan_exponent ex - Z.of_nat (String.length fp))).
Proof.
  intros Hip Hne Hfp Hex.
  destruct (all_digits_head ip Hip Hne) as (c & v & d' & -> & Hc).
  unfold JS.scan_unsigned. rewrite string_app_cons.
  rewrite (proj2 (proj2 (digit_head c v _ Hc))). rewrite <- string_app_cons.
  rewrite scan_digits_text by done.
  rewrite (string_app_cons "." "" (fp ++ ex)), string_app_empty_l.
  rewrite scan_digits_text by auto using literal_end_stops.
  destruct (Z.eqb_spec (0 + Z.of_nat (String.length (String c d'))
                        + (0 + Z.of_nat (String.length fp))) 0) as [H0|_].
  { cbn [String.length] in H0. lia. }
  by rewrite Z.add_0_l.
Qed.

(** [parseFloat] of a text that starts with a digit, and of the same text
    after a minus sign. *)
Lemma parseFloat_unsigned text c v r M e10 :
  text = String c r → JS.digit_of c = Some v →
  JS.scan_unsigned text = Some (JS.LDecimal M e10) →
  JS.parseFloat text = SF2Prim (JS.round_decimal M e10) ∧
  JS.parseFloat ("-" ++ text) = SF2Prim (SFopp (JS.round_decimal M e10)).
Proof.
  intros -> Hc Hscan. destruct (digit_head c v r Hc) as (Htrim & Hsign & _).
  split.
  - unfold JS.parseFloat, JS.scan_literal. by rewrite Htrim, Hsign, Hscan.
  - unfold JS.parseFloat, JS.scan_literal.
    change (JS.trimStart ("-" ++ String c r)) with ("-" ++ String c r).
    change (JS.scan_sign ("-" ++ String c r)) with (true, String c r).
    cbv beta iota. by rewrite Hscan.
Qed.

(** *** Cutting a digit string in two *)

Lemma substring_split (d : string) (n : nat) :
  (n <= String.length d)%nat →
  ∃ d1 d2,
    d = d1 ++ d2 ∧ substring 0 n d = d1 ∧
    substring n (String.length d - n) d = d2 ∧ String.length d1 = n.
Proof.
  revert n. induction d as [|c d IH]; intros n Hn.
  - cbn in Hn. assert (n = 0%nat) as -> by lia. by exists "", "".
  - destruct n as [|n].
    + exists "", (String c d). split; [done|]. split; [done|]. split; [|done].
      cbn [String.length Nat.sub substring]. f_equal.
      clear. induction d as [|c' d IH]; [done|]. cbn. by f_equal.
    + cbn [String.length] in Hn. destruct (IH n) as (d1 & d2 & Hd & H1 & H2 & Hl);
        [lia|].
      exists (String c d1), d2. rewrite string_app_cons, <- Hd. split; [done|].
      cbn [substring String.length Nat.sub]. rewrite H1, H2, Hl. done.
Qed.

End Reading.

Section Layout.

Lemma round_decimal_zeros s j :
  0 < s → 0 <= j <= 21 →
  JS.round_decimal (s * 10 ^ j) 0 = JS.round_decimal s j.
Proof.
  intros Hs Hj. unfold JS.round_decimal.
  assert (0 < 10 ^ j) by (apply Z.pow_pos_nonneg; lia).
  assert (0 <= Z.log2 (s * 10 ^ j)) by apply Z.log2_nonneg.
  assert (0 <= Z.log2 s) by apply Z.log2_nonneg.
  destruct (Z.eqb_spec (s * 10 ^ j) 0); [nia|].
  destruct (Z.eqb_spec s 0); [lia|].
  destruct (Z.ltb_spec 400 0); [lia|]. destruct (Z.ltb_spec 400 j); [lia|].
  destruct (Z.ltb_spec 0 (- 400 - (Z.log2 (s * 10 ^ j) + 1))); [lia|].
  destruct (Z.ltb_spec j (- 400 - (Z.log2 s + 1))); [lia|].
  destruct (Z.leb_spec 0 0); [|lia]. destruct (Z.leb_spec 0 j); [|lia].
  by rewrite Z.pow_0_r, Z.mul_1_r.
Qed.

(** What [parseFloat] reads from the layout of [s] and [n] is the decimal
    [s * 10^(n - k)], with [k] the number of digits of [s], up to the zeros
    written out at the end of an integer. *)
Lemma layout_read s n :
  0 < s →
  ∃ c v r M e10,
    JSNumber.layout s n = String c r ∧ JS.digit_of c = Some v ∧
    JS.scan_unsigned (JSNumber.layout s n) = Some (JS.LDecimal M e10) ∧
    JS.round_decimal M e10 = JS.round_decimal s (n - JSNumber.size s).
Proof.
  intros Hs. unfold JSNumber.layout.
  pose proof (digits_all s) as Hall. pose proof (digits_nonempty s) as Hne.
  pose proof (digits_value s 0 ltac:(lia)) as Hval. rewrite Z.mul_0_l, Z.add_0_l in Hval.
  assert (JSNumber.size s = Z.of_nat (String.length (JS.digits s))) as Hk by done.
  set (k := JSNumber.size s) in *. set (d := JS.digits s) in *.
  destruct (all_digits_head d Hall Hne) as (c & v & d' & Hd & Hc).
  destruct ((k <=? n) && (n <=? 21)) eqn:Ha.
  { (* an integer *)
    apply andb_true_iff in Ha as [Hkn%Z.leb_le Hn%Z.leb_le].
    set (j := Z.to_nat (n - k)).
    exists c, v, (d' ++ JS.repeat0 j), (s * 10 ^ (n - k)), 0.
    split; [by rewrite Hd, string_app_cons|]. split; [done|]. split.
    - rewrite <- (string_app_empty_r (d ++ JS.repeat0 j)).
      rewrite scan_unsigned_whole; [| | |by left].
      + rewrite value_from_app, Hval, repeat0_value by done.
        unfold j. by rewrite Z2Nat.id by lia.
      + by rewrite all_digits_app, Hall, repeat0_digits.
      + by rewrite Hd, string_app_cons.
    - apply round_decimal_zeros; lia. }
  destruct ((0 <? n) && (n <=? 21)) eqn:Hb.
  { (* a point inside *)
    apply andb_true_iff in Hb as [Hn0%Z.ltb_lt Hn%Z.leb_le].
    apply andb_false_iff in Ha as [Hkn%Z.leb_gt|Hn'%Z.leb_gt]; [|lia].
    destruct (substring_split d (Z.to_nat n)) as (d1 & d2 & Hsplit & H1 & H2 & Hl);
      [lia|].
    replace (Z.to_nat (k - n)) with (String.length d - Z.to_nat n)%nat by lia.
    rewrite H1, H2.
    pose proof Hall as Hall'. rewrite Hsplit, all_digits_app in Hall'.
    apply andb_true_iff in Hall' as [Hd1 Hd2].
    assert (d1 ≠ "") as Hne1 by (intros ->; cbn in Hl; lia).
    destruct (all_digits_head d1 Hd1 Hne1) as (c1 & v1 & d1' & Hd1' & Hc1).
    exists c1, v1, (d1' ++ "." ++ d2), s, (0 - Z.of_nat (String.length d2)).
    split; [by rewrite Hd1', string_app_cons|]. split; [done|]. split.
    - rewrite <- (string_app_empty_r d2) at 1.
      rewrite scan_unsigned_point; [| done | done | done | by left].
      by rewrite <- value_from_app, <- Hsplit, Hval by done.
    - f_equal. rewrite Hk, Hsplit, string_length_app, Hl. lia. }
  destruct ((-6 <? n) && (n <=? 0)) eqn:Hc'.
  { (* zeros after the point *)
    apply andb_true_iff in Hc' as [Hn6%Z.ltb_lt Hn0%Z.leb_le].
    set (j := Z.to_nat (- n)).
    exists "0"%char, 0, ("." ++ JS.repeat0 j ++ d), s,
      (0 - Z.of_nat (String.length (JS.repeat0 j ++ d))).
    split; [done|]. split; [done|]. split.
    - change ("0." ++ JS.repeat0 j ++ d) with ("0" ++ "." ++ (JS.repeat0 j ++ d)).
      rewrite <- (string_app_empty_r (JS.repeat0 j ++ d)) at 1.
      rewrite scan_unsigned_point; [| done | done | | by left].
      + rewrite value_from_app by apply repeat0_digits.
        change (value_from 0 "0") with 0. by rewrite repeat0_value, Z.mul_0_l, Hval.
      + by rewrite all_digits_app, repeat0_digits, Hall.
    - f_equal. rewrite string_length_app, repeat0_length. unfold j. lia. }
  (* exponential notation *)
  change ("e" ++ (if n - 1 <? 0 then "-" else "+") ++ JS.digits (Z.abs (n - 1)))
    with (exponent_text (n - 1)).
  rewrite Hd. destruct d' as [|c' d''].
  - exists c, v, (exponent_text (n - 1)), s, (n - 1).
    split; [done|]. split; [done|]. split.
    + rewrite scan_unsigned_whole; [| by rewrite <- Hd | done | right; by eexists].
      by rewrite <- Hd, Hval, scan_exponent_text.
    + f_equal. rewrite Hk, Hd. cbn [String.length]. lia.
  - exists c, v, ("." ++ String c' d'' ++ exponent_text (n - 1)), s,
      (n - 1 - Z.of_nat (String.length (String c' d''))).
    split; [done|]. split; [done|]. split.
    + rewrite scan_unsigned_point;
        [| by cbn; rewrite Hc | done | | right; by eexists].
      * rewrite <- value_from_app by (by cbn; rewrite Hc).
        change (String c "" ++ String c' d'') with (String c (String c' d'')).
        by rewrite <- Hd, Hval, scan_exponent_text.
      * rewrite Hd in Hall. cbn [all_digits] in Hall. by rewrite Hc in Hall.
    + f_equal. rewrite Hk, Hd. cbn [String.length]. lia.
Qed.

(** [parseFloat] reads the layout of [s] and [n] as the binary64 nearest
    to [s * 10^(n - k)], and with a minus sign before it as its opposite. *)
Lemma parseFloat_layout s n :
  0 < s →
  JS.parseFloat (JSNumber.layout s n)
  = SF2Prim (JS.round_decimal s (n - JSNumber.size s)) ∧
  JS.parseFloat ("-" ++ JSNumber.layout s n)
  = SF2Prim (SFopp (JS.round_decimal s (n - JSNumber.size s))).
Proof.
  intros Hs. destruct (layout_read s n Hs) as (c & v & r & M & e10 & Ht & Hc & Hscan & Hr).
  rewrite <- Hr. by apply (parseFloat_unsigned _ c v r).
Qed.

End Layout.

(* ===================================================================== *)
(** * Numbers that are read back exactly *)
(* ===================================================================== *)

Section Exact.

Lemma digits2_pos_shift m p :
  Z.pos (digits2_pos (Pos.iter xO m p)) = Z.pos (digits2_pos m) + Z.pos p.
Proof.
  induction p as [|p IH] using Pos.peano_ind.
  - cbn [Pos.iter digits2_pos]. lia.
  - rewrite Pos.iter_succ. cbn [digits2_pos]. lia.
Qed.

(** Shifting out the zeros that were shifted in loses nothing. *)
Lemma iter_shr_1_exact p m :
  SpecFloat.iter_pos shr_1 p
    {| shr_m := Z.pos (Pos.iter xO m p); shr_r := false; shr_s := false |}
  = {| shr_m := Z.pos m; shr_r := false; shr_s := false |}.
Proof.
  revert m. induction p as [p IH|p IH|]; intros m;
    cbn [SpecFloat.iter_pos Pos.iter shr_1 orb].
  - by rewrite !IH.
  - by rewrite !IH.
  - done.
Qed.

(** A valid binary64 written with a longer mantissa and a smaller exponent
    is normalised to itself. *)
Lemma binary_normalize_exact m e j :
  bounded prec emax m e = true → 0 <= j →
  binary_normalize prec emax (Z.pos m * 2 ^ j) (e - j) false
  = S754_finite false m e.
Proof.
  intros Hb Hj. pose proof Hb as [Hc He]%andb_prop.
  unfold canonical_mantissa in Hc. apply Z.eqb_eq in Hc.
  assert (shr_fexp prec emax (Z.pos m) e loc_Exact
          = ({| shr_m := Z.pos m; shr_r := false; shr_s := false |}, e)) as Hlast.
  { unfold shr_fexp. cbn [Zdigits2]. rewrite Hc, Z.sub_diag. done. }
  destruct j as [|p|p]; [| |lia].
  - rewrite Z.pow_0_r, Z.mul_1_r, Z.sub_0_r.
    unfold binary_normalize, binary_round, shl_align. rewrite Hc, Z.sub_diag.
    unfold binary_round_aux. rewrite Hlast. cbn [shr_m loc_of_shr_record round_nearest_even].
    rewrite Hlast. cbn [shr_m]. by rewrite He.
  - replace (Z.pos m * 2 ^ Z.pos p) with (Z.pos (Pos.iter xO m p)).
    2:{ change (Pos.iter xO m p) with (shift_pos p m).
        rewrite shift_pos_correct, Z.pow_pos_fold. apply Z.mul_comm. }
    unfold binary_normalize, binary_round, shl_align.
    rewrite digits2_pos_shift.
    replace (Z.pos (digits2_pos m) + Z.pos p + (e - Z.pos p))
      with (Z.pos (digits2_pos m) + e) by lia.
    rewrite Hc. replace (e - (e - Z.pos p)) with (Z.pos p) by lia.
    unfold binary_round_aux, shr_fexp at 1. cbn [Zdigits2].
    rewrite digits2_pos_shift.
    replace (Z.pos (digits2_pos m) + Z.pos p + (e - Z.pos p))
      with (Z.pos (digits2_pos m) + e) by lia.
    rewrite Hc. replace (e - (e - Z.pos p)) with (Z.pos p) by lia.
    cbn [shr_record_of_loc shr]. rewrite iter_shr_1_exact.
    cbn [shr_m loc_of_shr_record round_nearest_even].
    replace (e - Z.pos p + Z.pos p) with e by lia.
    rewrite Hlast. cbn [shr_m]. by rewrite He.
Qed.

End Exact.

Section ExactDecimal.

Lemma round_ratio_exact m a :
  bounded prec emax m (- a) = true → 0 < a →
  JS.round_ratio (Z.pos m * 5 ^ a) (10 ^ a) = S754_finite false m (- a).
Proof.
  intros Hb Ha. destruct (bounded_facts m (- a) Hb) as (_ & Hm & _).
  unfold JS.round_ratio.
  assert (0 < 5 ^ a) as H5 by (apply Z.pow_pos_nonneg; lia).
  assert (0 < 2 ^ a) as H2 by (apply Z.pow_pos_nonneg; lia).
  assert (10 ^ a = 5 ^ a * 2 ^ a) as H10
    by (change 10 with (5 * 2); apply Z.pow_mul_l).
  assert (Z.log2 (10 ^ a) = a + Z.log2 (5 ^ a)) as Hq
    by (rewrite H10; apply Z.log2_mul_pow2; lia).
  assert (Z.log2 (Z.pos m * 5 ^ a) <= 52 + Z.log2 (5 ^ a) + 1) as Hp.
  { etransitivity; [apply Z.log2_mul_above; lia|].
    assert (Z.log2 (Z.pos m) < 53) by (apply Z.log2_lt_pow2; lia). lia. }
  set (k := Z.max 0 (Z.log2 (10 ^ a) + 66 - Z.log2 (Z.pos m * 5 ^ a))).
  assert (a + 13 <= k) as Hk by lia.
  assert (Z.pos m * 5 ^ a * 2 ^ k = Z.pos m * 2 ^ (k - a) * 10 ^ a) as Hnum.
  { rewrite H10. replace k with ((k - a) + a) at 1 by lia.
    rewrite Z.pow_add_r by lia. ring. }
  rewrite Hnum, Z.mod_mul, Z.div_mul by lia.
  cbn [Z.eqb]. rewrite Z.add_0_r.
  replace (2 * (Z.pos m * 2 ^ (k - a))) with (Z.pos m * 2 ^ (k - a + 1))
    by (rewrite Z.pow_add_r by lia; ring).
  replace (- k - 1) with (- a - (k - a + 1)) by lia.
  apply binary_normalize_exact; [done|lia].
Qed.

(** The exact decimal expansion of a binary64 is read as that binary64. *)
Lemma round_decimal_exact m e :
  bounded prec emax m e = true →
  JS.round_decimal (if e <? 0 then Z.pos m * 5 ^ (- e) else Z.pos m * 2 ^ e)
    (Z.min e 0)
  = S754_finite false m e.
Proof.
  intros Hb. destruct (bounded_facts m e Hb) as ([He1 He2] & Hm & _).
  rewrite emin_value in He1. change (emax - prec) with 971 in He2.
  unfold JS.round_decimal. destruct (Z.ltb_spec e 0) as [Hneg|Hpos].
  - rewrite Z.min_l by lia.
    assert (0 < 5 ^ (- e)) as H5 by (apply Z.pow_pos_nonneg; lia).
    assert (- e <= Z.log2 (Z.pos m * 5 ^ (- e))) as Hlog.
    { apply Z.log2_le_pow2; [lia|].
      transitivity (5 ^ (- e)); [apply Z.pow_le_mono_l; lia|nia]. }
    destruct (Z.eqb_spec (Z.pos m * 5 ^ (- e)) 0); [lia|].
    destruct (Z.ltb_spec 400 e); [lia|].
    destruct (Z.ltb_spec e (- 400 - (Z.log2 (Z.pos m * 5 ^ (- e)) + 1))); [lia|].
    destruct (Z.leb_spec 0 e); [lia|].
    pose proof (round_ratio_exact m (- e)) as Hr.
    rewrite Z.opp_involutive in Hr. apply Hr; [done|lia].
  - rewrite Z.min_r by lia.
    assert (0 < 2 ^ e) as H2 by (apply Z.pow_pos_nonneg; lia).
    assert (0 <= Z.log2 (Z.pos m * 2 ^ e)) by apply Z.log2_nonneg.
    destruct (Z.eqb_spec (Z.pos m * 2 ^ e) 0); [lia|].
    destruct (Z.ltb_spec 400 0); [lia|].
    destruct (Z.ltb_spec 0 (- 400 - (Z.log2 (Z.pos m * 2 ^ e) + 1))); [lia|].
    destruct (Z.leb_spec 0 0); [|lia].
    unfold JS.round_int. rewrite Z.pow_0_r, Z.mul_1_r.
    pose proof (binary_normalize_exact m e e Hb ltac:(lia)) as Hn.
    by rewrite Z.sub_diag in Hn.
Qed.

Lemma rounds_back_true s e10 m e :
  JSNumber.rounds_back s e10 m e = true →
  s ≠ 0 ∧ JS.round_decimal s e10 = S754_finite false m e.
Proof.
  unfold JSNumber.rounds_back. split.
  - intros ->. by cbn in *.
  - destruct (JS.round_decimal s e10) as [| | |[] m' e']; try done.
    apply andb_prop in H as [->%Pos.eqb_eq ->%Z.eqb_eq]. done.
Qed.

(** What the search for the shortest digits returns is read as the
    binary64 it was made for. *)
Lemma shortest_read fuel P Q m e n k exact :
  0 <= P → 0 < Q → 0 <= k → 0 < exact →
  JS.round_decimal exact (n - JSNumber.size exact) = S754_finite false m e →
  ∀ s n', JSNumber.shortest fuel P Q m e n k exact = (s, n') →
          0 < s ∧ JS.round_decimal s (n' - JSNumber.size s) = S754_finite false m e.
Proof.
  intros HP HQ Hk Hex Hexact. revert k Hk.
  induction fuel as [|fuel IH]; intros k Hk s n' Hs.
  { cbn in Hs. by injection Hs as <- <-. }
  cbn [JSNumber.shortest] in Hs.
  set (P' := if n - k <? 0 then P * 10 ^ (k - n) else P) in Hs.
  set (Q' := if n - k <? 0 then Q else Q * 10 ^ (n - k)) in Hs.
  assert (0 <= P') as HP'.
  { unfold P'. destruct (n - k <? 0); [|done].
    apply Z.mul_nonneg_nonneg; [done|]. apply Z.pow_nonneg; lia. }
  assert (0 < Q') as HQ'.
  { unfold Q'. destruct (Z.ltb_spec (n - k) 0); [done|].
    apply Z.mul_pos_pos; [done|]. apply Z.pow_pos_nonneg; lia. }
  assert (0 <= P' / Q') as Hlo by (by apply Z.div_pos).
  set (lo := P' / Q') in *.
  set (cand := fun c : Z => if c =? 10 ^ k then (1, n + 1) else (c, n)).
  set (ok := fun c : Z =>
               let '(s, n') := cand c in
               JSNumber.rounds_back s (n' - JSNumber.size s) m e).
  change ((if ok lo && ok (lo + 1) then
             match 2 * (P' mod Q') ?= Q' with
             | Eq => if Z.even lo then cand lo else cand (lo + 1)
             | Lt => cand lo
             | Gt => cand (lo + 1)
             end
           else if ok lo then cand lo
           else if ok (lo + 1) then cand (lo + 1)
           else JSNumber.shortest fuel P Q m e n (k + 1) exact) = (s, n')) in Hs.
  assert (∀ c, 0 <= c → ok c = true → cand c = (s, n') →
               0 < s ∧ JS.round_decimal s (n' - JSNumber.size s)
                       = S754_finite false m e) as Hcand.
  { intros c Hc Hok Heq. unfold ok in Hok. rewrite Heq in Hok.
    apply rounds_back_true in Hok as [Hne Hr]. split; [|done].
    unfold cand in Heq. destruct (c =? 10 ^ k); injection Heq as <- <-; lia. }
  destruct (ok lo) eqn:Hoklo, (ok (lo + 1)) eqn:Hokhi; cbn [andb] in Hs.
  - destruct (2 * (P' mod Q') ?= Q'); [destruct (Z.even lo)| |];
      (apply (Hcand lo); [lia|done|done]) || (apply (Hcand (lo + 1)); [lia|done|done]).
  - apply (Hcand lo); [lia|done|done].
  - apply (Hcand (lo + 1)); [lia|done|done].
  - apply (IH (k + 1)); [lia|done].
Qed.

End ExactDecimal.

(* ===================================================================== *)
(** * Writing a number and reading it again *)
(* ===================================================================== *)

(** [parseFloat] reads what [toString] writes as the number written: every
    number but [-0], which is written as ["0"] and read as [+0]. *)
Lemma parseFloat_toString_SF (x : spec_float) :
  valid_binary x = true →
  JS.parseFloat (JSNumber.toString_SF x)
  = SF2Prim (match x with S754_zero _ => S754_zero false | _ => x end).
Proof.
  intros Hv. destruct x as [sg|sg| |sg m e].
  - reflexivity.
  - by destruct sg.
  - reflexivity.
  - cbn [valid_binary] in Hv. unfold JSNumber.toString_SF.
    set (exact := if e <? 0 then Z.pos m * 5 ^ (- e) else Z.pos m * 2 ^ e).
    set (P := if e <? 0 then Z.pos m else Z.pos m * 2 ^ e).
    set (Q := if e <? 0 then 2 ^ (- e) else 1).
    set (K := String.length (JS.digits exact)).
    set (n := Z.of_nat K + Z.min e 0).
    assert (0 < exact) as Hex.
    { unfold exact. destruct (Z.ltb_spec e 0);
        (apply Z.mul_pos_pos; [lia|apply Z.pow_pos_nonneg; lia]). }
    assert (0 <= P) as HP.
    { unfold P. destruct (Z.ltb_spec e 0); [lia|].
      apply Z.mul_nonneg_nonneg; [lia|apply Z.pow_nonneg; lia]. }
    assert (0 < Q) as HQ.
    { unfold Q. destruct (Z.ltb_spec e 0); [apply Z.pow_pos_nonneg|]; lia. }
    assert (JS.round_decimal exact (n - JSNumber.size exact)
            = S754_finite false m e) as Hexact.
    { replace (n - JSNumber.size exact) with (Z.min e 0)
        by (unfold n, K, JSNumber.size; lia).
      by apply round_decimal_exact. }
    destruct (JSNumber.shortest (K - 1) P Q m e n 1 exact) as [s n'] eqn:Hs.
    destruct (shortest_read (K - 1) P Q m e n 1 exact HP HQ ltac:(lia) Hex
                Hexact s n' Hs) as [Hpos Hr].
    destruct (parseFloat_layout s n' Hpos) as [Hplus Hminus].
    destruct sg.
    + by rewrite Hminus, Hr.
    + rewrite string_app_empty_l. by rewrite Hplus, Hr.
Qed.

Lemma is_zero_SF (x : float) :
  is_zero x = match Prim2SF x with S754_zero _ => true | _ => false end.
Proof.
  unfold is_zero. rewrite FloatAxioms.eqb_spec.
  change (Prim2SF 0) with (S754_zero false).
  by destruct (Prim2SF x) as [[]|[]| |[] m e].
Qed.

Lemma parseFloat_toString (x : JS.number) :
  JS.parseFloat (JSNumber.toString x)
  = if is_zero x then 0%float else x.
Proof.
  unfold JSNumber.toString. rewrite parseFloat_toString_SF by apply Prim2SF_valid.
  rewrite is_zero_SF.
  destruct (Prim2SF x) as [sg|sg| |sg m e] eqn:Hx;
    [reflexivity|rewrite <- Hx; apply SF2Prim_Prim2SF..].
Qed.

(* ===================================================================== *)
(** * Opening and closing the edit form *)
(* ===================================================================== *)

Lemma is_zero_neg_zero (x : float) :
  x ≠ neg_zero → (if is_zero x then 0%float else x) = x.
Proof.
  intros Hx. rewrite is_zero_SF.
  destruct (Prim2SF x) as [[]| | |] eqn:Hsf; try done.
  - destruct Hx. apply Prim2SF_inj. by rewrite Hsf.
  - apply Prim2SF_inj. by rewrite Hsf.
Qed.

(** What the form holds right after [startEditingItem] is stored as the
    item itself, unless the price is [-0]. *)
Lemma editedItem_startEditingItem st item e :
  editingItem (startEditingItem st item) = Some e →
  WishlistItem.price item ≠ neg_zero →
  editedItem e = item.
Proof.
  intros [= <-] Hp. unfold editedItem. cbn.
  rewrite parseFloat_toString, is_zero_neg_zero by done. by destruct item.
Qed.

(** X17. Opening the edit form on an item and closing it again, with the save
    button or with the cancel button and nothing typed in between, leaves
    everybody's lists as they were. Saving stores the item as it was, for
    every price but [-0]: what [toString] writes into the price field,
    [parseFloat] reads back as the same number. Both buttons leave the
    form closed (saving does when the id of the item is not empty). *)
Theorem startEditingItem_closed st item personId :
  cancelEditing (startEditingItem st item) = cancelEditing st ∧
  (WishlistItem.price item ≠ neg_zero →
   (∀ person other,
      person ∈ people st → Person.id person = personId →
      other ∈ Person.items person →
      WishlistItem.id other = WishlistItem.id item → other = item) →
   people (saveEditedItem (startEditingItem st item) personId) = people st ∧
   (WishlistItem.id item ≠ "" →
    saveEditedItem (startEditingItem st item) personId = cancelEditing st)).
Proof.
  split; [done|]. intros Hp Hsame.
  destruct (decide (WishlistItem.id item = "")) as [Hempty|Hne].
  { split; [|done]. unfold saveEditedItem. cbn [editingItem editingItemId startEditingItem].
    by rewrite Hempty. }
  assert (people (saveEditedItem (startEditingItem st item) personId) = people st)
    as Hpeople.
  { erewrite saveEditedItem_people; [|reflexivity|reflexivity|done].
    cbn [people startEditingItem]. apply onPerson_same.
    intros person Hin Hid.
    transitivity {| Person.id := Person.id person;
                    Person.name := Person.name person;
                    Person.items := Person.items person |};
      [|apply person_eta].
    f_equal. rewrite <- (list_fmap_id (Person.items person)) at 2.
    apply list_fmap_ext. intros i other Hi. cbn.
    destruct (String.eqb_spec (WishlistItem.id other) (WishlistItem.id item))
      as [Heq|]; [|done].
    rewrite (Hsame person other Hin Hid (list_elem_of_lookup_2 _ _ _ Hi) Heq).
    by apply (editedItem_startEditingItem st). }
  split; [done|]. intros _.
  unfold saveEditedItem in *. cbn [editingItem editingItemId startEditingItem] in *.
  rewrite (proj2 (String.eqb_neq _ _) Hne) in *.
  cbn [people] in Hpeople. unfold cancelEditing. by rewrite Hpeople.
Qed.

Lemma startEditingItem_closed_witness :
  people (saveEditedItem (startEditingItem aliceState itemB) "alice")
  = people aliceState ∧
  saveEditedItem (startEditingItem aliceState itemB) "alice"
  = cancelEditing aliceState.
Proof.
  pose proof (proj2 (startEditingItem_closed aliceState itemB "alice")) as H.
  destruct H as [Hp Hs].
  - apply float_neq. vm_compute. discriminate.
  - intros person other Hin _ Hother Hid.
    apply list_elem_of_singleton in Hin as ->.
    apply list_elem_of_In in Hother. cbn in Hother.
    destruct Hother as [<-|[<-|[<-|[]]]]; cbn in Hid; done || discriminate Hid.
  - split; [exact Hp|]. apply Hs. discriminate.
Defined.

(** The text of a finite number always starts a literal. *)
Lemma scan_literal_layout s n :
  0 < s →
  JS.scan_literal (JSNumber.layout s n) ≠ None ∧
  JS.scan_literal ("-" ++ JSNumber.layout s n) ≠ None.
Proof.
  intros Hs.
  destruct (layout_read s n Hs) as (c & v & r & M & e10 & Ht & Hc & Hscan & _).
  destruct (digit_head c v r Hc) as (Htrim & Hsign & _).
  rewrite Ht in *. split.
  - unfold JS.scan_literal. by rewrite Htrim, Hsign, Hscan.
  - unfold JS.scan_literal.
    change (JS.trimStart ("-" ++ String c r)) with ("-" ++ String c r).
    change (JS.scan_sign ("-" ++ String c r)) with (true, String c r).
    cbv beta iota. by rewrite Hscan.
Qed.

(** X18. The price text that [startEditingItem] puts into the form is read by
    [parseFloat] as the price of the item ([-0] as [+0]), and it is no
    number only when the price is [NaN]. *)
Theorem startEditingItem_price st item e :
  editingItem (startEditingItem st item) = Some e →
  JS.parseFloat (EditingItem.price e)
  = (if is_zero (WishlistItem.price item) then 0%float
     else WishlistItem.price item) ∧
  (unparsable (EditingItem.price e) ↔
   Prim2SF (WishlistItem.price item) = S754_nan).
Proof.
  intros [= <-]. cbn [EditingItem.price]. split; [apply parseFloat_toString|].
  unfold unparsable, JSNumber.toString.
  destruct (Prim2SF (WishlistItem.price item)) as [sg|sg| |sg m e] eqn:Hx.
  - done.
  - by destruct sg.
  - done.
  - unfold JSNumber.toString_SF.
    destruct (JSNumber.shortest _ _ _ _ _ _ _ _) as [s n'] eqn:Hs.
    assert (0 < s) as Hpos.
    { pose proof (Prim2SF_valid (WishlistItem.price item)) as Hv.
      rewrite Hx in Hv. cbn [valid_binary] in Hv.
      eapply (shortest_read _ _ _ m e _ 1); [| | | | |exact Hs].
      - destruct (Z.ltb_spec e 0); [lia|].
        apply Z.mul_nonneg_nonneg; [lia|apply Z.pow_nonneg; lia].
      - destruct (Z.ltb_spec e 0); [apply Z.pow_pos_nonneg|]; lia.
      - lia.
      - destruct (Z.ltb_spec e 0);
          (apply Z.mul_pos_pos; [lia|apply Z.pow_pos_nonneg; lia]).
      - match goal with |- JS.round_decimal ?x ?y = _ =>
          replace y with (Z.min e 0) by (unfold JSNumber.size; lia) end.
        by apply round_decimal_exact. }
    destruct (scan_literal_layout s n' Hpos) as [Hplus Hminus].
    split; [|done]. intros Hnone. destruct sg; [done|].
    by rewrite string_app_empty_l in Hnone.
Qed.

Lemma startEditingItem_price_witness :
  JS.parseFloat (JSNumber.toString (WishlistItem.price itemB)) = 20%float.
Proof.
  apply (proj1 (startEditingItem_price aliceState itemB _ eq_refl)).
Defined.

(* ===================================================================== *)
(** * The display price is the amount in whole hundredths *)
(* ===================================================================== *)

Lemma convertPrice_renderedAmount fx st price c1 c2 :
  convertPrice fx st price c1 c2
  = JS.toFixed (renderedAmount fx st price c1 c2) 2.
Proof.
  unfold convertPrice, renderedAmount.
  destruct (_ || _); [done|]. by destruct (fx _ _ _ _).
Qed.

(** [n.toFixed(2)] of a non-negative integer number of hundredths: digits,
    a point, two digits. *)
Lemma fixed_digits_two n :
  0 <= n →
  ∃ ip fp,
    JS.fixed_digits 2 n = ip ++ "." ++ fp ∧
    all_digits ip = true ∧ ip ≠ "" ∧ all_digits fp = true ∧
    String.length fp = 2%nat ∧ value_from (value_from 0 ip) fp = n.
Proof.
  intros Hn. unfold JS.fixed_digits.
  set (d := if (String.length (JS.digits n) <=? 2)%nat
            then JS.repeat0 (2 + 1 - String.length (JS.digits n)) ++ JS.digits n
            else JS.digits n).
  assert (all_digits d = true ∧ value_from 0 d = n ∧ (3 <= String.length d)%nat)
    as (Hall & Hval & Hlen).
  { pose proof (digits_value n 0 Hn) as Hv. rewrite Z.mul_0_l, Z.add_0_l in Hv.
    unfold d. destruct (Nat.leb_spec (String.length (JS.digits n)) 2) as [Hk|Hk].
    - rewrite all_digits_app, repeat0_digits, digits_all.
      rewrite value_from_app, repeat0_value, Z.mul_0_l by apply repeat0_digits.
      rewrite string_length_app, repeat0_length. split; [done|]. split; [done|lia].
    - rewrite digits_all. split; [done|]. split; [done|lia]. }
  destruct (substring_split d (String.length d - 2)) as (d1 & d2 & Hd & H1 & H2 & Hl);
    [lia|].
  replace (String.length d - (String.length d - 2))%nat with 2%nat in H2 by lia.
  exists d1, d2. rewrite H1, H2. split; [done|].
  pose proof Hall as Hall'. rewrite Hd, all_digits_app in Hall'.
  apply andb_true_iff in Hall' as [Hd1 Hd2].
  split; [done|]. split; [intros ->; cbn in Hl; lia|]. split; [done|]. split.
  - pose proof (f_equal String.length Hd) as Hlen'.
    rewrite string_length_app in Hlen'. lia.
  - by rewrite <- value_from_app, <- Hd.
Qed.

(** Reading what [toFixed(2)] wrote gives the number in whole hundredths. *)
Lemma parseFloat_toFixed (x : JS.number) :
  below_1e21 (Prim2SF x) →
  JS.parseFloat (JS.toFixed x 2) = SF2Prim (cents (Prim2SF x)).
Proof.
  unfold JS.toFixed, below_1e21, cents.
  destruct (Prim2SF x) as [sg|sg| |sg m e]; intros Hsmall.
  - reflexivity.
  - by destruct sg.
  - reflexivity.
  - rewrite Hsmall.
    assert (0 <= JS.scaled 2 m e) as Hn.
    { unfold JS.scaled. destruct e as [|p|p]; [lia|lia|].
      apply Z.div_pos; [lia|]. apply Z.pow_pos_nonneg; lia. }
    destruct (fixed_digits_two _ Hn) as (ip & fp & -> & Hip & Hne & Hfp & Hlen & Hval).
    destruct (all_digits_head ip Hip Hne) as (c & v & ip' & Hipeq & Hc).
    pose proof (scan_unsigned_point ip fp "" Hip Hne Hfp (or_introl eq_refl)) as Hscan.
    rewrite string_app_empty_r, Hval, Hlen in Hscan.
    change (JS.scan_exponent "" - Z.of_nat 2) with (- 2) in Hscan.
    destruct (parseFloat_unsigned (ip ++ "." ++ fp) c v (ip' ++ "." ++ fp) _ _
                ltac:(by rewrite Hipeq, string_app_cons) Hc Hscan) as [Hplus Hminus].
    destruct sg; [exact Hminus|]. by rewrite string_app_empty_l.
Qed.

(** X19. The amount every caller of [convertPrice] computes with is the rendered
    amount in whole hundredths: [parseFloat] undoes [toFixed] up to the
    rounding to two decimals, for every amount below [10^21] in magnitude,
    [NaN] and the infinities included. *)
Theorem displayPrice_cents fx st item :
  below_1e21
    (Prim2SF (renderedAmount fx st (WishlistItem.price item)
                (WishlistItem.currency item) (displayCurrency st))) →
  displayPrice fx st item
  = SF2Prim
      (cents
         (Prim2SF (renderedAmount fx st (WishlistItem.price item)
                     (WishlistItem.currency item) (displayCurrency st)))).
Proof.
  intros Hsmall. unfold displayPrice. rewrite convertPrice_renderedAmount.
  by apply parseFloat_toFixed.
Qed.

Lemma displayPrice_cents_witness :
  displayPrice fx_spec noRates
    {| WishlistItem.id := "S"; WishlistItem.name := "S";
       WishlistItem.price := sixteenth; WishlistItem.currency := "USD";
       WishlistItem.link := ""; WishlistItem.parentId := None;
       WishlistItem.isRequired := None |}
  = SF2Prim (JS.round_decimal 6 (- 2)).
Proof.
  apply (displayPrice_cents fx_spec noRates
           {| WishlistItem.id := "S"; WishlistItem.name := "S";
              WishlistItem.price := sixteenth; WishlistItem.currency := "USD";
              WishlistItem.link := ""; WishlistItem.parentId := None;
              WishlistItem.isRequired := None |}).
  vm_compute. reflexivity.
Defined.

(* ===================================================================== *)
(** * Conversion through the base currency *)
(* ===================================================================== *)

Lemma truthy_hasRate (rs : ExchangeRates) c r :
  rs !! c = Some r → hasRate rs c = JS.truthy r.
Proof. unfold hasRate. by intros ->. Qed.

(** The rate the package reads for a currency: 1 for the base, whatever
    the table says. *)
Lemma Money_rate (rs : ExchangeRates) c r :
  rs !! c = Some r →
  <[ Money.base := 1%float ]> rs !! c
  = Some (if String.eqb c Money.base then 1%float else r).
Proof.
  intros Hr. destruct (String.eqb_spec c Money.base) as [->|Hne].
  - by rewrite lookup_insert_eq.
  - by rewrite lookup_insert_ne.
Qed.

Lemma truthy_rate c r :
  JS.truthy r = true →
  JS.truthy (if String.eqb c Money.base then 1%float else r) = true.
Proof. by destruct (String.eqb c Money.base). Qed.

(** With both rates there and truthy, the package multiplies the amount by
    the rate to the base and then by the rate from the base. *)
Lemma Money_fx_value (rs : ExchangeRates) a c1 c2 r1 r2 :
  rs !! c1 = Some r1 → rs !! c2 = Some r2 →
  JS.truthy r1 = true → JS.truthy r2 = true →
  Money.fx rs a c1 c2
  = Some (a * (if String.eqb c1 Money.base then 1 else 1 / r1)
            * (if String.eqb c2 Money.base then 1 else r2))%float.
Proof.
  intros H1 H2 Ht1 Ht2. unfold Money.fx, Money.convert, Money.getRate.
  rewrite (Money_rate rs c1 r1 H1), (Money_rate rs c2 r2 H2).
  rewrite lookup_insert_eq.
  rewrite (truthy_rate c1 r1 Ht1), (truthy_rate c2 r2 Ht2).
  change (JS.truthy 1) with true. cbn [negb orb].
  change (String.eqb Money.base Money.base) with true.
  destruct (String.eqb c1 Money.base); reflexivity.
Qed.

Lemma renderedAmount_fallback fx st a c1 c2 :
  hasRate (rates st) c1 = false ∨ hasRate (rates st) c2 = false →
  renderedAmount fx st a c1 c2 = a.
Proof.
  unfold renderedAmount. intros [-> | ->]; [done|]. by rewrite orb_true_r.
Qed.

Lemma renderedAmount_Money st a c1 c2 r1 r2 :
  rates st !! c1 = Some r1 → rates st !! c2 = Some r2 →
  JS.truthy r1 = true → JS.truthy r2 = true →
  renderedAmount Money.fx st a c1 c2
  = (a * (if String.eqb c1 Money.base then 1 else 1 / r1)
       * (if String.eqb c2 Money.base then 1 else r2))%float.
Proof.
  intros H1 H2 Ht1 Ht2. unfold renderedAmount.
  rewrite (truthy_hasRate _ _ _ H1), (truthy_hasRate _ _ _ H2), Ht1, Ht2.
  cbn [negb orb]. by rewrite (Money_fx_value _ _ _ _ r1 r2).
Qed.

(** C4 (amended). For a currency whose rate is in the table, converting an
    amount to the same currency returns, rendered with two decimals, the
    amount the conversion routine computes for it, and the amount itself
    when the rate is 0 or [NaN] or the routine throws. The [money] package
    converts through the base currency: for the base currency the result
    is [a.toFixed(2)], whatever rate the table has for it; for another
    currency with the rate [r] it is [((a * (1 / r)) * r).toFixed(2)]. *)
Theorem convertPrice_same_currency :
  (∀ fx st a c r,
     rates st !! c = Some r →
     convertPrice fx st a c c
     = JS.toFixed
         (if JS.truthy r then default a (fx (rates st) a c c) else a) 2) ∧
  (∀ st a c r,
     rates st !! c = Some r → JS.truthy r = true →
     Money.fx (rates st) a c c
     = Some (if String.eqb c Money.base then a else (a * (1 / r) * r)%float) ∧
     convertPrice Money.fx st a c c
     = JS.toFixed
         (if String.eqb c Money.base then a else (a * (1 / r) * r)%float) 2) ∧
  (∀ st a r,
     rates st !! Money.base = Some r →
     convertPrice Money.fx st a Money.base Money.base = JS.toFixed a 2).
Proof.
  assert (∀ fx st a c r,
            rates st !! c = Some r →
            convertPrice fx st a c c
            = JS.toFixed
                (if JS.truthy r then default a (fx (rates st) a c c) else a) 2)
    as Hany.
  { intros fx st a c r Hr. unfold convertPrice.
    rewrite (truthy_hasRate _ _ _ Hr). destruct (JS.truthy r); [|done].
    cbn [negb orb]. by destruct (fx (rates st) a c c). }
  assert (∀ st a c r,
            rates st !! c = Some r → JS.truthy r = true →
            Money.fx (rates st) a c c
            = Some (if String.eqb c Money.base then a
                    else (a * (1 / r) * r)%float)) as Hfx.
  { intros st a c r Hr Ht. rewrite (Money_fx_value _ a c c r r Hr Hr Ht Ht).
    destruct (String.eqb c Money.base); [|done]. by rewrite !mul_one. }
  split; [exact Hany|]. split.
  - intros st a c r Hr Ht. split; [by apply Hfx|].
    by rewrite (Hany _ _ _ _ r Hr), Ht, (Hfx _ _ _ r Hr Ht).
  - intros st a r Hr. rewrite (Hany _ _ _ _ r Hr).
    destruct (JS.truthy r) eqn:Ht; [|done].
    by rewrite (Hfx _ _ _ r Hr Ht).
Qed.

(** C4, at two inputs. With the table [{USD: 1}], converting 0.0625 from
    the dollar to the dollar gives ["0.06"], which is not the amount (under
    the package's arithmetic and under the formula of the design document
    alike). With the euro at 0.92, converting 0.485 from the euro to the
    euro gives ["0.49"], while the amount itself is rendered ["0.48"]. *)
Lemma convertPrice_same_currency_rounds :
  (rates aliceState !! "USD" = Some 1%float ∧
   convertPrice Money.fx aliceState sixteenth "USD" "USD" = "0.06" ∧
   convertPrice fx_spec aliceState sixteenth "USD" "USD" = "0.06" ∧
   JS.parseFloat (convertPrice Money.fx aliceState sixteenth "USD" "USD")
   ≠ sixteenth) ∧
  (rates euroState !! "EUR" = Some (JS.parseFloat "0.92") ∧
   convertPrice Money.fx euroState (JS.parseFloat "0.485") "EUR" "EUR" = "0.49" ∧
   JS.toFixed (JS.parseFloat "0.485") 2 = "0.48").
Proof.
  split.
  - split; [reflexivity|]. split; [vm_compute; reflexivity|].
    split; [vm_compute; reflexivity|].
    apply float_neq. vm_compute. discriminate.
  - split; [reflexivity|]. split; vm_compute; reflexivity.
Qed.

Lemma convertPrice_same_currency_witness :
  convertPrice Money.fx euroState (JS.parseFloat "0.485") "EUR" "EUR"
  = JS.toFixed
      (JS.parseFloat "0.485" * (1 / JS.parseFloat "0.92") * JS.parseFloat "0.92")
      2 ∧
  convertPrice Money.fx euroState 100 "USD" "USD" = "100.00".
Proof.
  split.
  - apply (proj2 (proj1 (proj2 convertPrice_same_currency)
                    euroState (JS.parseFloat "0.485") "EUR" (JS.parseFloat "0.92")
                    eq_refl eq_refl)).
  - apply (proj2 (proj2 convertPrice_same_currency) euroState 100%float 1%float).
    reflexivity.
Defined.

(* ===================================================================== *)
(** * The group total *)
(* ===================================================================== *)

(** C1 (amended). [calculateGroupTotal] is 0 when no item has the id
    [parentId]. Otherwise it is the amount shown for the parent (the first
    item with that id) to which the amounts shown for the items with that
    [parentId] and a true [isRequired] are added in list order, and for no
    other item. The amount shown for an item is its price converted to the
    display currency, rendered with two decimals and read again: the
    converted price in whole hundredths, where the conversion is what the
    routine returns for two rates that are there and truthy (for the
    [money] package the price times the rate to the base times the rate
    from the base), and the price itself otherwise. For Alice's items A
    (100 USD), B (20 USD, required child of A) and C (5 USD, child of A,
    not required), shown in USD with the table [{USD: 1}], it is 120; for
    P (10 EUR), its required child Q (0.0625 USD) and its child R (5 USD,
    not required), shown in USD with the euro at 0.92, it is
    10.87 + 0.06 = 10.93. *)
Theorem calculateGroupTotal_correct :
  (∀ fx st items parentId,
     let shown item :=
       JS.parseFloat
         (JS.toFixed
            (renderedAmount fx st (WishlistItem.price item)
               (WishlistItem.currency item) (displayCurrency st)) 2) in
     ((∀ item, item ∈ items → WishlistItem.id item ≠ parentId) →
      calculateGroupTotal fx st items parentId = 0%float) ∧
     (∀ i parent,
        items !! i = Some parent →
        WishlistItem.id parent = parentId →
        (∀ j item, (j < i)%nat → items !! j = Some item →
                   WishlistItem.id item ≠ parentId) →
        calculateGroupTotal fx st items parentId
        = sumFrom (shown parent)
            (shown <$> filter (requiredChildOf parentId) items))) ∧
  (∀ x : JS.number,
     below_1e21 (Prim2SF x) →
     JS.parseFloat (JS.toFixed x 2) = SF2Prim (cents (Prim2SF x))) ∧
  (∀ fx st a c1 c2,
     hasRate (rates st) c1 = false ∨ hasRate (rates st) c2 = false →
     renderedAmount fx st a c1 c2 = a) ∧
  (∀ fx st a c1 c2,
     hasRate (rates st) c1 = true → hasRate (rates st) c2 = true →
     renderedAmount fx st a c1 c2 = default a (fx (rates st) a c1 c2)) ∧
  (∀ st a c1 c2 r1 r2,
     rates st !! c1 = Some r1 → rates st !! c2 = Some r2 →
     JS.truthy r1 = true → JS.truthy r2 = true →
     renderedAmount Money.fx st a c1 c2
     = (a * (if String.eqb c1 Money.base then 1 else 1 / r1)
          * (if String.eqb c2 Money.base then 1 else r2))%float) ∧
  calculateGroupTotal Money.fx aliceState [itemA; itemB; itemC] "A" = 120%float ∧
  calculateGroupTotal Money.fx euroState [itemP; itemQ; itemR] "P"
  = JS.parseFloat "10.93".
Proof.
  split; [|split; [|split; [|split; [|split; [|split]]]]].
  - intros fx st items parentId shown.
    assert (∀ item, displayPrice fx st item = shown item) as Hshown.
    { intros item. unfold displayPrice, shown.
      by rewrite convertPrice_renderedAmount. }
    split.
    + intros Hno. unfold calculateGroupTotal.
      rewrite find_nothing; [done|].
      intros x Hx. by apply String.eqb_neq, Hno.
    + intros i parent Hi Hid Hfirst. unfold calculateGroupTotal.
      rewrite (find_first _ _ i parent); [|done|by apply String.eqb_eq|].
      * rewrite fold_left_sumFrom, Hshown. f_equal.
        rewrite (filter_callback _ (requiredChildOf parentId)).
        -- apply list_fmap_ext. intros k item _. apply Hshown.
        -- intros x. unfold requiredChildOf.
           by rewrite andb_true_iff, strictEq_Some, truthy_flag_true.
      * intros j y Hj Hy. by apply String.eqb_neq, (Hfirst j).
  - exact parseFloat_toFixed.
  - exact renderedAmount_fallback.
  - intros fx st a c1 c2 H1 H2. unfold renderedAmount. rewrite H1, H2.
    cbn [negb orb]. by destruct (fx (rates st) a c1 c2).
  - exact renderedAmount_Money.
  - vm_compute. reflexivity.
  - vm_compute. reflexivity.
Qed.

(** C1, at an item of 0.0625 dollars that has no children, shown in
    dollars with the table [{USD: 1}]: the price converted to the dollar is
    0.0625, and the group total is 0.06. *)
Lemma calculateGroupTotal_rounds :
  Money.fx (rates aliceState) sixteenth "USD" "USD" = Some sixteenth ∧
  fx_spec (rates aliceState) sixteenth "USD" "USD" = Some sixteenth ∧
  calculateGroupTotal Money.fx aliceState [itemS] "S" = JS.parseFloat "0.06" ∧
  calculateGroupTotal fx_spec aliceState [itemS] "S" = JS.parseFloat "0.06" ∧
  calculateGroupTotal Money.fx aliceState [itemS] "S" ≠ sixteenth.
Proof.
  split; [vm_compute; reflexivity|]. split; [vm_compute; reflexivity|].
  split; [vm_compute; reflexivity|]. split; [vm_compute; reflexivity|].
  apply float_neq. vm_compute. discriminate.
Qed.

Lemma calculateGroupTotal_witness :
  calculateGroupTotal Money.fx euroState [itemP; itemQ; itemR] "P"
  = sumFrom
      (JS.parseFloat (JS.toFixed (10 * (1 / JS.parseFloat "0.92") * 1) 2))
      [JS.parseFloat (JS.toFixed (sixteenth * 1 * 1) 2)] ∧
  renderedAmount Money.fx euroState 10 "EUR" "USD"
  = (10 * (1 / JS.parseFloat "0.92") * 1)%float ∧
  JS.parseFloat (JS.toFixed sixteenth 2) = SF2Prim (JS.round_decimal 6 (- 2)).
Proof.
  split; [|split].
  - pose proof (proj2 (proj1 calculateGroupTotal_correct Money.fx euroState
                         [itemP; itemQ; itemR] "P") 0%nat itemP
                  eq_refl eq_refl) as Htotal.
    rewrite Htotal by (intros j item Hj; lia).
    vm_compute. reflexivity.
  - apply (proj1 (proj2 (proj2 (proj2 (proj2 calculateGroupTotal_correct))))
             euroState 10%float "EUR" "USD" (JS.parseFloat "0.92") 1%float);
      reflexivity.
  - apply (proj1 (proj2 calculateGroupTotal_correct) sixteenth).
    vm_compute. reflexivity.
Defined.

(* ===================================================================== *)
(** * Sorting what is in order *)
(* ===================================================================== *)


